(** * mini-framework: tree model, reconciler, state store, router and
    events

    A shallow embedding of [src/framework/dom.js], with the events system
    listed after it, [src/framework/state.js] and [src/framework/router.js];
    the properties their specification states about them, and further
    properties that the code has.

    Conventions of the embedding.
    - JavaScript values are the inductive type [jsval].  A number is kept as
      its canonical string form (what [String(n)] returns), which determines
      the number up to the sign of zero.
    - Strings are [string]: a character stands for one code unit below 256.
    - A function value is a reference [JFun f]; two function values are the
      same function exactly when the references are equal.
    - Code that can throw returns a [result]; code that works on the live
      document or on the store threads that state explicitly. *)

From Stdlib Require Import Ascii String.
From stdpp Require Import base option list strings gmap pretty.

Open Scope string_scope.
#[local] Set Warnings "-register-all".

(** ** JavaScript values *)

Inductive jsval : Type :=
  | JUndefined
  | JNull
  | JBool (b : bool)
  | JNum (repr : string)
  | JStr (s : string)
  | JFun (f : nat)
  | JArr (items : list jsval)
  (** an object with [type: 'text']: [{ type: 'text', value }] *)
  | JText (value : string)
  (** an object with a [tag], which is a string: [{ tag, attrs, children }] *)
  | JElem (tag : string) (attrs : jsval) (children : list jsval)
  (** any other object, by its own enumerable properties in their order *)
  | JObj (props : list (string * jsval)).

Inductive jserror : Type :=
  | TypeError
  | URIError
  | NotFoundError
  | HierarchyRequestError
  | Error (message : string).

Inductive result (A : Type) : Type :=
  | Ok (a : A)
  | Throw (e : jserror).
Arguments Ok {A} a.
Arguments Throw {A} e.

Global Instance result_ret : MRet result := λ A a, Ok a.
Global Instance result_bind : MBind result := λ A B f m,
  match m with
  | Ok a => f a
  | Throw e => Throw e
  end.
Global Instance result_fmap : FMap result := λ A B f m,
  match m with
  | Ok a => Ok (f a)
  | Throw e => Throw e
  end.

(** [ToBoolean]: the falsy values are [undefined], [null], [false], the
    numbers [0] and [NaN], and the empty string. *)
Definition truthy (v : jsval) : bool :=
  match v with
  | JUndefined | JNull => false
  | JBool b => b
  | JNum r => negb (bool_decide (r = "0") || bool_decide (r = "NaN"))
  | JStr s => negb (bool_decide (s = ""))
  | _ => true
  end.

Inductive jstype : Type :=
  | TUndefined | TObject | TBoolean | TNumber | TString | TFunction.

Definition typeof (v : jsval) : jstype :=
  match v with
  | JUndefined => TUndefined
  | JBool _ => TBoolean
  | JNum _ => TNumber
  | JStr _ => TString
  | JFun _ => TFunction
  | JNull | JArr _ | JObj _ | JText _ | JElem _ _ _ => TObject
  end.

Global Instance jstype_eq_dec : EqDecision jstype.
Proof. solve_decision. Defined.

(** [String(v)] for the two kinds of value the tree model applies it to. *)
Definition String_ (v : jsval) : string :=
  match v with
  | JStr s => s
  | JNum r => r
  | _ => ""
  end.

(** [===] on values.  Two object values met at different places of a tree
    (or in two trees) are taken to be different objects: every render cycle
    builds its tree anew. *)
Definition strict_eq (a b : jsval) : bool :=
  match a, b with
  | JUndefined, JUndefined | JNull, JNull => true
  | JBool x, JBool y => bool_decide (x = y)
  | JNum x, JNum y => bool_decide (x = y) && negb (bool_decide (x = "NaN"))
  | JStr x, JStr y => bool_decide (x = y)
  | JFun f, JFun g => bool_decide (f = g)
  | _, _ => false
  end.

(** The own enumerable properties of a value, in enumeration order
    ([Object.entries]). *)
Definition entries (v : jsval) : list (string * jsval) :=
  match v with
  | JObj props => props
  | JArr items => imap (λ i x, (pretty i, x)) items
  | JStr s => imap (λ i c, (pretty i, JStr (String c ""))) (list_ascii_of_string s)
  | JText value => [("type", JStr "text"); ("value", JStr value)]
  | JElem tag attrs children =>
      [("tag", JStr tag); ("attrs", attrs); ("children", JArr children)]
  | _ => []
  end.

Fixpoint assoc (key : string) (props : list (string * jsval)) : option jsval :=
  match props with
  | [] => None
  | (k, v) :: rest => if bool_decide (k = key) then Some v else assoc key rest
  end.

(** [obj[key]] for a value that is neither [null] nor [undefined];
    inherited properties are not modelled. *)
Definition get_prop (obj : jsval) (key : string) : jsval :=
  default JUndefined (assoc key (entries obj)).

(** ** Tree model and renderer ([dom.js]) *)

Module Dom.

(** [Array.prototype.flat()] with its default depth 1. *)
Definition flat (xs : list jsval) : list jsval :=
  xs ≫= (λ x, match x with JArr items => items | _ => [x] end).

(** The predicate of [filter] in [createElement]:
    [child !== null && child !== undefined && child !== false]. *)
Definition kept (child : jsval) : bool :=
  match child with
  | JNull | JUndefined | JBool false => false
  | _ => true
  end.

(** The function of [map] in [createElement]. *)
Definition wrap (child : jsval) : jsval :=
  if bool_decide (typeof child = TString) || bool_decide (typeof child = TNumber)
  then JText (String_ child)
  else child.

(** [attrs || {}] *)
Definition or_empty (attrs : jsval) : jsval :=
  if truthy attrs then attrs else JObj [].

(** [createElement(tag, attrs = {}, ...children)]; a missing [attrs]
    argument is [JUndefined], which the default turns into [{}]. *)
Definition createElement (tag : string) (attrs : jsval) (children : list jsval)
  : jsval :=
  let attrs := match attrs with JUndefined => JObj [] | _ => attrs end in
  let flatChildren := List.filter kept (flat children) in
  JElem tag (or_empty attrs) (wrap <$> flatChildren).

(** [vNode.children || []] *)
Definition children_of (vNode : jsval) : list jsval :=
  match vNode with
  | JElem _ _ children => children
  | _ => []
  end.

(** *** The live document

    The platform interface the renderer consumes: nodes live in a heap
    and are known by their address; a node reference that is [None] is
    [null] or [undefined]. *)

Record dom_node : Type := DomNode {
  tagName : option string;             (* [None] for a text node *)
  nodeValue : string;                  (* the data of a text node *)
  attributes : gmap string jsval;      (* the value handed to [setAttribute] *)
  style : list (string * jsval);
  listeners : list (string * nat);     (* event name, function reference *)
  childNodes : list nat;
  parentNode : option nat
}.

Record document : Type := Document {
  nodes : gmap nat dom_node;
  next_node : nat
}.

Definition M (A : Type) : Type := document → result (A * document).

Global Instance M_ret : MRet M := λ A a d, Ok (a, d).
Global Instance M_bind : MBind M := λ A B f m d,
  match m d with
  | Ok (a, d') => f a d'
  | Throw e => Throw e
  end.

Definition throw {A} (e : jserror) : M A := λ _, Throw e.
Definition get_document : M document := λ d, Ok (d, d).
Definition put_document (d : document) : M unit := λ _, Ok ((), d).

(** Dereferencing for a property read or a method call: [null] and
    [undefined] throw a [TypeError]. *)
Definition deref (r : option nat) : M (nat * dom_node) :=
  match r with
  | None => throw TypeError
  | Some a =>
      d ← get_document;
      match nodes d !! a with
      | Some n => mret (a, n)
      | None => throw TypeError
      end
  end.

Definition store_node (a : nat) (n : dom_node) : M unit :=
  d ← get_document;
  put_document (Document (<[a := n]> (nodes d)) (next_node d)).

Definition alloc_node (n : dom_node) : M nat :=
  d ← get_document;
  put_document (Document (<[next_node d := n]> (nodes d)) (S (next_node d)));;
  mret (next_node d).

Definition document_createElement (tag : string) : M nat :=
  alloc_node (DomNode (Some tag) "" ∅ [] [] [] None).

Definition document_createTextNode (data : string) : M nat :=
  alloc_node (DomNode None data ∅ [] [] [] None).

Definition with_children (n : dom_node) (cs : list nat) : dom_node :=
  DomNode (tagName n) (nodeValue n) (attributes n) (style n) (listeners n)
          cs (parentNode n).

Definition with_parent (n : dom_node) (p : option nat) : dom_node :=
  DomNode (tagName n) (nodeValue n) (attributes n) (style n) (listeners n)
          (childNodes n) p.

Definition remove_ref (a : nat) (cs : list nat) : list nat :=
  List.filter (λ c, negb (bool_decide (c = a))) cs.

(** Takes a node out of the child list of its parent, if it has one. *)
Definition detach (a : nat) : M unit :=
  '(_, n) ← deref (Some a);
  match parentNode n with
  | None => mret ()
  | Some p =>
      '(_, pn) ← deref (Some p);
      store_node p (with_children pn (remove_ref a (childNodes pn)));;
      store_node a (with_parent n None)
  end.

(** [parent.appendChild(child)].  The renderer appends nodes it has just
    created, so the check against inserting an ancestor is left out. *)
Definition appendChild (parent child : option nat) : M unit :=
  '(p, pn) ← deref parent;
  '(c, _) ← deref child;
  match tagName pn with
  | None => throw HierarchyRequestError
  | Some _ =>
      detach c;;
      '(_, pn) ← deref (Some p);
      '(_, cn) ← deref (Some c);
      store_node p (with_children pn (childNodes pn ++ [c]));;
      store_node c (with_parent cn (Some p))
  end.

Fixpoint replace_ref (old new : nat) (cs : list nat) : list nat :=
  match cs with
  | [] => []
  | c :: rest =>
      if bool_decide (c = old) then new :: rest
      else c :: replace_ref old new rest
  end.

(** [parent.replaceChild(newChild, oldChild)] *)
Definition replaceChild (parent newChild oldChild : option nat) : M unit :=
  '(p, pn) ← deref parent;
  '(c, _) ← deref newChild;
  '(o, on) ← deref oldChild;
  if bool_decide (o ∈ childNodes pn) then
    detach c;;
    '(_, pn) ← deref (Some p);
    '(_, cn) ← deref (Some c);
    store_node p (with_children pn (replace_ref o c (childNodes pn)));;
    store_node c (with_parent cn (Some p));;
    '(_, on) ← deref (Some o);
    store_node o (with_parent on None)
  else throw NotFoundError.

(** [parent.removeChild(child)] *)
Definition removeChild (parent child : option nat) : M unit :=
  '(p, pn) ← deref parent;
  '(c, cn) ← deref child;
  if bool_decide (c ∈ childNodes pn) then
    store_node p (with_children pn (remove_ref c (childNodes pn)));;
    store_node c (with_parent cn None)
  else throw NotFoundError.

(** [Array.from(parent.childNodes)] *)
Definition get_childNodes (parent : option nat) : M (list nat) :=
  '(_, pn) ← deref parent;
  mret (childNodes pn).

(** [domElement.parentNode] *)
Definition get_parentNode (node : option nat) : M (option nat) :=
  '(_, n) ← deref node;
  mret (parentNode n).

(** [node.nodeValue]: the data of a text node, [null] for an element. *)
Definition get_nodeValue (node : option nat) : M jsval :=
  '(_, n) ← deref node;
  mret (match tagName n with None => JStr (nodeValue n) | Some _ => JNull end).

(** [node.nodeValue = data]: no effect on an element. *)
Definition set_nodeValue (node : option nat) (data : string) : M unit :=
  '(a, n) ← deref node;
  match tagName n with
  | None =>
      store_node a (DomNode None data (attributes n) (style n) (listeners n)
                            (childNodes n) (parentNode n))
  | Some _ => mret ()
  end.

(** The element methods; a text node has none of them. *)
Definition deref_element (node : option nat) : M (nat * dom_node) :=
  '(a, n) ← deref node;
  match tagName n with
  | None => throw TypeError
  | Some _ => mret (a, n)
  end.

Definition setAttribute (node : option nat) (name : string) (value : jsval)
  : M unit :=
  '(a, n) ← deref_element node;
  store_node a (DomNode (tagName n) (nodeValue n) (<[name := value]> (attributes n))
                        (style n) (listeners n) (childNodes n) (parentNode n)).

(** [element.removeAttribute(name)]; removing [style] also empties the
    inline style. *)
Definition removeAttribute (node : option nat) (name : string) : M unit :=
  '(a, n) ← deref_element node;
  store_node a (DomNode (tagName n) (nodeValue n) (delete name (attributes n))
                        (if bool_decide (name = "style") then [] else style n)
                        (listeners n) (childNodes n) (parentNode n)).

(** [Object.assign(element.style, value)] *)
Definition assign_style (node : option nat) (value : jsval) : M unit :=
  '(a, n) ← deref_element node;
  store_node a (DomNode (tagName n) (nodeValue n) (attributes n)
                        (style n ++ entries value)
                        (listeners n) (childNodes n) (parentNode n)).

(** [node.addEventListener(type, listener)]: a listener already registered
    for the event is not registered twice; [null] is ignored and a primitive
    is refused. *)
Definition addEventListener (node : option nat) (type : string) (listener : jsval)
  : M unit :=
  '(a, n) ← deref node;
  match listener with
  | JFun f =>
      if bool_decide ((type, f) ∈ listeners n) then mret ()
      else store_node a (DomNode (tagName n) (nodeValue n) (attributes n) (style n)
                                 (listeners n ++ [(type, f)])
                                 (childNodes n) (parentNode n))
  | JNull | JUndefined => mret ()
  | JBool _ | JNum _ | JStr _ => throw TypeError
  | _ => mret ()
  end.

Definition removeEventListener (node : option nat) (type : string)
    (listener : jsval) : M unit :=
  '(a, n) ← deref node;
  match listener with
  | JFun f =>
      store_node a (DomNode (tagName n) (nodeValue n) (attributes n) (style n)
                            (List.filter (λ l, negb (bool_decide (l = (type, f))))
                                         (listeners n))
                            (childNodes n) (parentNode n))
  | JNull | JUndefined => mret ()
  | JBool _ | JNum _ | JStr _ => throw TypeError
  | _ => mret ()
  end.

(** *** Renderer and reconciler *)

(** [s.startsWith(p)] *)
Fixpoint starts_with (p s : string) : bool :=
  match p with
  | EmptyString => true
  | String a p' =>
      match s with
      | String b s' => bool_decide (a = b) && starts_with p' s'
      | EmptyString => false
      end
  end.

(** [s.slice(n)] for [n >= 0] *)
Fixpoint slice (n : nat) (s : string) : string :=
  match n, s with
  | 0, _ => s
  | S k, String _ rest => slice k rest
  | S _, EmptyString => EmptyString
  end.

Definition lower_char (c : ascii) : ascii :=
  let n := nat_of_ascii c in
  if bool_decide (65 ≤ n)%nat && bool_decide (n ≤ 90)%nat
  then ascii_of_nat (n + 32) else c.

Fixpoint toLowerCase (s : string) : string :=
  match s with
  | EmptyString => EmptyString
  | String c rest => String (lower_char c) (toLowerCase rest)
  end.

(** [xs.forEach(f)] for an array that [f] does not change *)
Definition forEach {A} (f : A → M unit) : list A → M unit :=
  fix go (xs : list A) : M unit :=
    match xs with
    | [] => mret ()
    | x :: rest => f x;; go rest
    end.

Definition ignore {A} (m : M A) : M unit := m;; mret ().

(** The body of the attribute loop of [render]. *)
Definition render_attribute (element : option nat) (key : string) (value : jsval)
  : M unit :=
  if starts_with "on" key && bool_decide (typeof value = TFunction) then
    addEventListener element (toLowerCase (slice 2 key)) value
  else if bool_decide (key = "style") && bool_decide (typeof value = TObject) then
    assign_style element value
  else if bool_decide (key = "className") then
    setAttribute element "class" value
  else if bool_decide (typeof value = TBoolean) then
    if truthy value then setAttribute element key (JStr "") else mret ()
  else if negb (strict_eq value JNull) && negb (strict_eq value JUndefined) then
    setAttribute element key value
  else mret ().

(** [render(vNode, container)].  The first statement reads [vNode.type],
    which throws for [null] and [undefined]; the guard [!vNode || !vNode.tag]
    comes after it. *)
Fixpoint render (vNode : jsval) (container : option nat) : M (option nat) :=
  match vNode with
  | JUndefined | JNull => throw TypeError
  | JText value =>
      textNode ← document_createTextNode value;
      appendChild container (Some textNode);;
      mret (Some textNode)
  | JElem tag attrs children =>
      if negb (truthy (JStr tag)) then mret None
      else
        element ← document_createElement tag;
        (if truthy attrs
         then forEach (λ '(key, value), render_attribute (Some element) key value)
                      (entries attrs)
         else mret ());;
        forEach (λ child, ignore (render child (Some element))) children;;
        appendChild container (Some element);;
        mret (Some element)
  | _ => mret None
  end.

(** [v.tag]; throws for [null] and [undefined]. *)
Definition tag_of (v : jsval) : M jsval :=
  match v with
  | JUndefined | JNull => throw TypeError
  | JElem tag _ _ => mret (JStr tag)
  | _ => mret JUndefined
  end.

(** [vNode.attrs], for a value that is neither [null] nor [undefined] *)
Definition attrs_of (vNode : jsval) : jsval :=
  match vNode with
  | JElem _ attrs _ => attrs
  | _ => JUndefined
  end.

(** [attr in newAttrs]; throws when the right operand is a primitive. *)
Definition has_property (key : string) (obj : jsval) : M bool :=
  match typeof obj with
  | TObject | TFunction =>
      match obj with
      | JNull => throw TypeError
      | _ => mret (bool_decide (is_Some (assoc key (entries obj))))
      end
  | _ => throw TypeError
  end.

(** [updateAttributes(element, newAttrs, oldAttrs)] *)
Definition updateAttributes (element : option nat) (newAttrs oldAttrs : jsval)
  : M unit :=
  forEach (λ attr,
      if starts_with "on" attr then
        removeEventListener element (toLowerCase (slice 2 attr))
                            (get_prop oldAttrs attr)
      else
        present ← has_property attr newAttrs;
        if negb present then removeAttribute element attr else mret ())
    (fst <$> entries oldAttrs);;
  forEach (λ '(attr, value),
      if starts_with "on" attr && bool_decide (typeof value = TFunction) then
        (if truthy (get_prop oldAttrs attr)
         then removeEventListener element (toLowerCase (slice 2 attr))
                                  (get_prop oldAttrs attr)
         else mret ());;
        addEventListener element (toLowerCase (slice 2 attr)) value
      else if bool_decide (attr = "style") && bool_decide (typeof value = TObject) then
        removeAttribute element "style";;
        assign_style element value
      else if bool_decide (attr = "className") then
        setAttribute element "class" value
      else if bool_decide (typeof value = TBoolean) then
        if truthy value then setAttribute element attr (JStr "")
        else removeAttribute element attr
      else if negb (strict_eq value (get_prop oldAttrs attr)) then
        setAttribute element attr value
      else mret ())
    (entries newAttrs).

Section children.
(** [updateChildren] calls [patch] and [render]; it is written over any
    two functions of their types and tied to the real ones below. *)
Variable patch : jsval → jsval → option nat → M (option nat).
Variable render : jsval → option nat → M (option nat).

(** The first loop, [for (let i = 0; i < newChildren.length; i++)], at
    index [i] with [news] the entries of [newChildren] from [i] on. *)
Fixpoint update_or_add (parent : option nat) (childNodes : list nat)
    (oldChildren : list jsval) (i : nat) (news : list jsval) : M unit :=
  match news with
  | [] => mret ()
  | newChild :: rest =>
      (if bool_decide (i < length oldChildren)
       then ignore (patch newChild (nth i oldChildren JUndefined) (childNodes !! i))
       else ignore (render newChild parent));;
      update_or_add parent childNodes oldChildren (S i) rest
  end.

(** The second loop,
    [for (let i = newChildren.length; i < oldChildren.length; i++)], at
    index [i] with [count] iterations to go. *)
Fixpoint remove_extra (parent : option nat) (childNodes : list nat)
    (i count : nat) : M unit :=
  match count with
  | 0 => mret ()
  | S k =>
      removeChild parent (childNodes !! i);;
      remove_extra parent childNodes (S i) k
  end.

Definition updateChildren_with (parent : option nat)
    (newChildren oldChildren : list jsval) : M unit :=
  childNodes ← get_childNodes parent;
  update_or_add parent childNodes oldChildren 0 newChildren;;
  remove_extra parent childNodes (length newChildren)
               (length oldChildren - length newChildren).
End children.

(** [patch(newVNode, oldVNode, domElement)] *)
Fixpoint patch (newVNode oldVNode : jsval) (domElement : option nat)
  : M (option nat) :=
  different ←
    (if negb (truthy oldVNode) then mret true
     else
       oldTag ← tag_of oldVNode;
       newTag ← tag_of newVNode;
       mret (negb (strict_eq oldTag newTag)));
  if different : bool then
    container ← document_createElement "div";
    newElement ← render newVNode (Some container);
    parent ← get_parentNode domElement;
    replaceChild parent newElement domElement;;
    mret newElement
  else
    match newVNode with
    | JText value =>
        current ← get_nodeValue domElement;
        (if negb (strict_eq current (JStr value))
         then set_nodeValue domElement value else mret ());;
        mret domElement
    | JElem _ attrs children =>
        updateAttributes domElement (or_empty attrs) (or_empty (attrs_of oldVNode));;
        updateChildren_with patch render domElement children (children_of oldVNode);;
        mret domElement
    | _ =>
        updateAttributes domElement (JObj []) (or_empty (attrs_of oldVNode));;
        updateChildren_with patch render domElement [] (children_of oldVNode);;
        mret domElement
    end.

(** [updateChildren(parent, newChildren, oldChildren)] *)
Definition updateChildren : option nat → list jsval → list jsval → M unit :=
  updateChildren_with patch render.

End Dom.

(** ** State store ([state.js])

    The store is the closure of [createState]: its variables are the fields
    of [store].  The functions the application hands to the store (getters,
    functional updates, subscribers) and the persistence backends belong to
    the world around it: a getter and a functional update are pure functions
    of the state they are given, a subscriber observes, and none of them
    writes to the objects it is handed or calls back into the store while it
    runs (the re-entrancy the specification lists as a hazard).  Every call
    the store makes to them is recorded in [trace]. *)

Module State.

Inductive persistence : Type :=
  | NoPersistence                    (* [null] *)
  | LocalStorage                     (* ['localStorage'] *)
  | SessionStorage                   (* ['sessionStorage'] *)
  | Adapter (has_getItem has_setItem : bool).

Inductive event : Type :=
  | GetterCalled (getter : nat) (state : gmap string jsval)
  | UpdateCalled (update : nat) (snapshot : gmap string jsval)
  | Notified (subscriber : nat) (newState oldState : gmap string jsval)
             (newValues : jsval)
  | ItemSet (key value : string)
  | ConsoleError (message : string).

Record store : Type := Store {
  persistence_target : persistence;
  persistenceKey : string;
  initialState : gmap string jsval;
  state : gmap string jsval;
  subscribers : list nat;
  computedCache : gmap string jsval;
  computedProperties : gmap string nat;
  backend : gmap string string;       (* the items of the configured backend *)
  trace : list event
}.

(** What the world provides. *)
Record environment : Type := Environment {
  call_getter : nat → gmap string jsval → jsval;
  call_update : nat → gmap string jsval → jsval;
  JSON_stringify : gmap string jsval → result string;
  JSON_parse : string → result jsval
}.

(** What [getState] returns: the snapshot object, or one value. *)
Inductive got : Type :=
  | Snapshot (s : gmap string jsval)
  | Value (v : jsval).

Definition set_state (s : gmap string jsval) (st : store) : store :=
  Store (persistence_target st) (persistenceKey st) (initialState st) s
        (subscribers st) (computedCache st) (computedProperties st)
        (backend st) (trace st).

Definition set_subscribers (l : list nat) (st : store) : store :=
  Store (persistence_target st) (persistenceKey st) (initialState st) (state st)
        l (computedCache st) (computedProperties st) (backend st) (trace st).

Definition set_computedCache (c : gmap string jsval) (st : store) : store :=
  Store (persistence_target st) (persistenceKey st) (initialState st) (state st)
        (subscribers st) c (computedProperties st) (backend st) (trace st).

Definition set_computedProperties (c : gmap string nat) (st : store) : store :=
  Store (persistence_target st) (persistenceKey st) (initialState st) (state st)
        (subscribers st) (computedCache st) c (backend st) (trace st).

Definition set_backend (b : gmap string string) (st : store) : store :=
  Store (persistence_target st) (persistenceKey st) (initialState st) (state st)
        (subscribers st) (computedCache st) (computedProperties st) b (trace st).

Definition log (e : event) (st : store) : store :=
  Store (persistence_target st) (persistenceKey st) (initialState st) (state st)
        (subscribers st) (computedCache st) (computedProperties st)
        (backend st) (trace st ++ [e]).

(** [{ ...target, ...source }]: the own properties of [source], in order,
    each overriding what is there. *)
Definition spread (target : gmap string jsval) (source : jsval)
  : gmap string jsval :=
  foldl (λ m kv, <[kv.1 := kv.2]> m) target (entries source).

(** The state object as a value, for property access. *)
Definition state_object (s : gmap string jsval) : jsval := JObj (map_to_list s).

(** [prop.split('.')] *)
Fixpoint split_dots (current : string) (s : string) : list string :=
  match s with
  | EmptyString => [String.rev current]
  | String c rest =>
      if bool_decide (c = "."%char) then String.rev current :: split_dots "" rest
      else split_dots (String c current) rest
  end.

Definition includes_dot (s : string) : bool :=
  bool_decide ("."%char ∈ list_ascii_of_string s).

Section store.
Context (env : environment).

(** [saveState()]: whatever fails is caught and logged. *)
Definition saveState (st : store) : store :=
  match persistence_target st with
  | NoPersistence => st
  | target =>
      match JSON_stringify env (state st) with
      | Throw _ => log (ConsoleError "Failed to persist state:") st
      | Ok stateToSave =>
          match target with
          | Adapter _ false => st
          | _ =>
              log (ItemSet (persistenceKey st) stateToSave)
                  (set_backend (<[persistenceKey st := stateToSave]> (backend st)) st)
          end
      end
  end.

(** [loadPersistedState()] *)
Definition loadPersistedState (st : store) : store :=
  match persistence_target st with
  | NoPersistence => st
  | Adapter false _ => st
  | _ =>
      match backend st !! persistenceKey st with
      | None => st
      | Some savedState =>
          if bool_decide (savedState = "") then st
          else
            match JSON_parse env savedState with
            | Throw _ => log (ConsoleError "Failed to load persisted state:") st
            | Ok parsedState => set_state (spread (state st) parsedState) st
            end
      end
  end.

(** [createState(initialState, options)]: the store as the closure holds
    it when the API object is returned. *)
Definition createState (initial : gmap string jsval) (target : persistence)
    (key : string) (items : gmap string string) : store :=
  loadPersistedState (Store target key initial initial [] ∅ ∅ items []).

(** The [reduce] of the dotted lookup. *)
Definition dotted_step (obj : jsval) (key : string) : jsval :=
  if truthy obj && negb (strict_eq (get_prop obj key) JUndefined)
  then get_prop obj key else JUndefined.

(** [getState(prop)]; [None] is a call without argument. *)
Definition getState (prop : option string) (st : store) : got * store :=
  match prop with
  | Some p =>
      if bool_decide (p = "") then (Snapshot (state st), st)
      else
        match computedProperties st !! p with
        | Some getter =>
            match computedCache st !! p with
            | Some cached => (Value cached, st)
            | None =>
                let value := call_getter env getter (state st) in
                (Value value,
                 set_computedCache (<[p := value]> (computedCache st))
                                   (log (GetterCalled getter (state st)) st))
            end
        | None =>
            if includes_dot p
            then (Value (foldl dotted_step (state_object (state st))
                               (split_dots "" p)), st)
            else (Value (default JUndefined (state st !! p)), st)
        end
  | None => (Snapshot (state st), st)
  end.

(** [subscribers.forEach(subscriber => subscriber(state, oldState, newValues))] *)
Definition notify (oldState : gmap string jsval) (newValues : jsval)
    (st : store) : store :=
  foldl (λ st subscriber,
           log (Notified subscriber (state st) oldState newValues) st)
        st (subscribers st).

(** [setState(update)] *)
Definition setState (update : jsval) (st : store) : got * store :=
  let oldState := state st in
  let '(newValues, st) :=
    match update with
    | JFun f =>       (* [update(this.getState())], on the snapshot *)
        (call_update env f (state st), log (UpdateCalled f (state st)) st)
    | _ => (update, st)
    end in
  let st := set_state (spread (state st) newValues) st in
  let st := set_computedCache ∅ st in
  let st := saveState st in
  let st := notify oldState newValues st in
  getState None st.

(** [subscribe(callback)]: the closure it returns is [unsubscribe] at the
    callback it captured. *)
Definition subscribe (callback : jsval) (st : store) : result (nat * store) :=
  match callback with
  | JFun f => Ok (f, set_subscribers (subscribers st ++ [f]) st)
  | _ => Throw (Error "Subscriber callback must be a function")
  end.

(** [subscribers.indexOf(callback)] *)
Fixpoint indexOf (callback : nat) (l : list nat) : option nat :=
  match l with
  | [] => None
  | f :: rest =>
      if bool_decide (f = callback) then Some 0
      else S <$> indexOf callback rest
  end.

(** The closure [() => { ... subscribers.splice(index, 1) ... }] *)
Definition unsubscribe (callback : nat) (st : store) : store :=
  match indexOf callback (subscribers st) with
  | Some index => set_subscribers (delete index (subscribers st)) st
  | None => st
  end.

(** [computed(name, getter)] *)
Definition computed (name : string) (getter : jsval) (st : store)
  : result store :=
  match getter with
  | JFun g => Ok (set_computedProperties (<[name := g]> (computedProperties st)) st)
  | _ => Throw (Error "Computed property getter must be a function")
  end.

(** [reset(newInitial)]; [None] is a call without argument. *)
Definition reset (newInitial : option (gmap string jsval)) (st : store)
  : got * store :=
  let initialValues := default (initialState st) newInitial in
  let st := set_state initialValues st in
  let st := set_computedCache ∅ st in
  let st := saveState st in
  let st := notify ∅ (state_object initialValues) st in
  getState None st.

Definition subscriberCount (st : store) : nat := length (subscribers st).
End store.

End State.

(** ** Router ([router.js])

    The compiled matcher of a route is a regular expression.  The
    expressions the router builds from a path of literal text, [:name]
    segments and [**] wildcards are sequences of literal characters and of
    two capture groups, one segment (a non-empty run without a slash) and
    one wildcard (any run, greedy); [RegExp] yields [None] for a pattern
    outside of this fragment, about which the model says nothing. *)

Module Router.

Inductive token : Type :=
  | Lit (c : ascii)
  | Segment                     (* the group of one or more non-slashes *)
  | Wildcard.                   (* the group of any characters *)

Definition in_range (lo hi : nat) (c : ascii) : bool :=
  bool_decide (lo ≤ nat_of_ascii c)%nat && bool_decide (nat_of_ascii c ≤ hi)%nat.

(** [\w] *)
Definition is_word (c : ascii) : bool :=
  in_range 48 57 c || in_range 65 90 c || in_range 97 122 c
  || bool_decide (c = "_"%char).

Definition starts_with_word (s : string) : bool :=
  match s with
  | String c _ => is_word c
  | EmptyString => false
  end.

(** [s.replace(/\/\//g, '/')] *)
Fixpoint replace_slashes (s : string) : string :=
  match s with
  | String a (String b rest as tail) =>
      if bool_decide (a = "/"%char) && bool_decide (b = "/"%char)
      then String "/" (replace_slashes rest)
      else String a (replace_slashes tail)
  | _ => s
  end.

(** [s.replace(/:\w+/g, ...)] with the segment group as replacement;
    [in_name] holds while the scan is inside a match, past its colon. *)
Fixpoint replace_params (in_name : bool) (s : string) : string :=
  match s with
  | EmptyString => EmptyString
  | String c rest =>
      if in_name && is_word c then replace_params true rest
      else if bool_decide (c = ":"%char) && starts_with_word rest
      then "([^/]+)" ++ replace_params true rest
      else String c (replace_params false rest)
  end.

(** [s.replace(/\*\*/g, ...)] with the wildcard group as replacement *)
Fixpoint replace_wildcards (s : string) : string :=
  match s with
  | String a (String b rest as tail) =>
      if bool_decide (a = "*"%char) && bool_decide (b = "*"%char)
      then "(.*)" ++ replace_wildcards rest
      else String a (replace_wildcards tail)
  | _ => s
  end.

(** [(s.match(/:\w+/g) || []).map(param => param.substring(1))];
    [current] is the name being read, its characters in reverse. *)
Fixpoint param_names (current : option string) (s : string) : list string :=
  let close := match current with Some n => [String.rev n] | None => [] end in
  match s with
  | EmptyString => close
  | String c rest =>
      match current with
      | Some n =>
          if is_word c then param_names (Some (String c n)) rest
          else if bool_decide (c = ":"%char) && starts_with_word rest
          then close ++ param_names (Some "") rest
          else close ++ param_names None rest
      | None =>
          if bool_decide (c = ":"%char) && starts_with_word rest
          then param_names (Some "") rest
          else param_names None rest
      end
  end.

(** The characters with a meaning of their own in a pattern. *)
Definition is_meta (c : ascii) : bool :=
  bool_decide (c ∈ list_ascii_of_string "\^$.|?*+()[]{}").

(** [new RegExp(`^${pattern}$`)]; [skip] counts the characters of a group
    still to be passed over. *)
Fixpoint RegExp (skip : nat) (pattern : string) : option (list token) :=
  match pattern with
  | EmptyString => Some []
  | String c rest =>
      match skip with
      | S k => RegExp k rest
      | 0 =>
          if Dom.starts_with "([^/]+)" pattern
          then (Segment ::.) <$> RegExp 6 rest
          else if Dom.starts_with "(.*)" pattern
          then (Wildcard ::.) <$> RegExp 3 rest
          else if is_meta c then None
          else (Lit c ::.) <$> RegExp 0 rest
      end
  end.

(** What [.] matches: anything but a line terminator. *)
Definition is_dot (c : ascii) : bool :=
  negb (bool_decide (c = "010"%char) || bool_decide (c = "013"%char)).

Definition not_slash (c : ascii) : bool := negb (bool_decide (c = "/"%char)).

(** A greedy group followed by the rest [k] of the expression: the longest
    run of allowed characters is tried first, then the shorter ones;
    [taken] is the run so far, in reverse, and [least] its required length. *)
Fixpoint greedy (allowed : ascii → bool) (least : nat)
    (k : string → option (list string)) (taken : string) (s : string)
  : option (list string) :=
  let stop :=
    if bool_decide (least ≤ String.length taken)%nat
    then (String.rev taken ::.) <$> k s else None in
  match s with
  | String c rest =>
      if allowed c then
        match greedy allowed least k (String c taken) rest with
        | Some captures => Some captures
        | None => stop
        end
      else stop
  | EmptyString => stop
  end.

(** [s.match(regexp)] without the whole match: the captures of the first
    way to match all of [s], or [None]. *)
Fixpoint exec (re : list token) (s : string) : option (list string) :=
  match re with
  | [] => if bool_decide (s = "") then Some [] else None
  | Lit c :: re' =>
      match s with
      | String d rest => if bool_decide (c = d) then exec re' rest else None
      | EmptyString => None
      end
  | Segment :: re' => greedy not_slash 1 (exec re') "" s
  | Wildcard :: re' => greedy is_dot 0 (exec re') "" s
  end.

Record route : Type := Route {
  path : string;
  handler : nat;
  regexp : list token;
  paramNames : list string;
  meta : jsval
}.

(** The value of [currentRoute] when a route matched. *)
Record route_info : Type := RouteInfo {
  info_path : string;
  info_params : gmap string string;
  info_meta : jsval
}.

Inductive event : Type :=
  | BeforeEachCalled (hook : nat) (candidate previous : option route_info)
  | HandlerCalled (handler : nat) (params : gmap string string)
                  (current : option route_info)
  | NotFoundCalled (handler : nat) (path : string)
  | AfterEachCalled (hook : nat) (current previous : option route_info)
  | ListenerCalled (listener : nat) (current : option route_info)
  | LocationSet (replace : bool) (hash : string).

Record router : Type := Router {
  routes : list route;
  currentRoute : option route_info;
  defaultRoute : string;
  notFoundHandler : option nat;
  beforeEach : option nat;
  afterEach : option nat;
  listeners : list nat;
  currentHash : string;
  location_hash : string;        (* [window.location.hash] *)
  hashchange_bound : bool;       (* [init] has registered its listener *)
  trace : list event
}.

(** What the world provides: the platform's [decodeURIComponent], and the
    value the promise of a [beforeEach] hook resolves to. *)
Record environment : Type := Environment {
  decodeURIComponent : string → result string;
  call_beforeEach : nat → option route_info → option route_info → jsval
}.

Definition set_routes (l : list route) (r : router) : router :=
  Router l (currentRoute r) (defaultRoute r) (notFoundHandler r) (beforeEach r)
         (afterEach r) (listeners r) (currentHash r) (location_hash r)
         (hashchange_bound r) (trace r).

Definition set_currentRoute (c : option route_info) (r : router) : router :=
  Router (routes r) c (defaultRoute r) (notFoundHandler r) (beforeEach r)
         (afterEach r) (listeners r) (currentHash r) (location_hash r)
         (hashchange_bound r) (trace r).

Definition set_currentHash (h : string) (r : router) : router :=
  Router (routes r) (currentRoute r) (defaultRoute r) (notFoundHandler r)
         (beforeEach r) (afterEach r) (listeners r) h (location_hash r)
         (hashchange_bound r) (trace r).

Definition set_location_hash (h : string) (r : router) : router :=
  Router (routes r) (currentRoute r) (defaultRoute r) (notFoundHandler r)
         (beforeEach r) (afterEach r) (listeners r) (currentHash r) h
         (hashchange_bound r) (trace r).

Definition set_listeners (l : list nat) (r : router) : router :=
  Router (routes r) (currentRoute r) (defaultRoute r) (notFoundHandler r)
         (beforeEach r) (afterEach r) l (currentHash r) (location_hash r)
         (hashchange_bound r) (trace r).

Definition set_hashchange_bound (r : router) : router :=
  Router (routes r) (currentRoute r) (defaultRoute r) (notFoundHandler r)
         (beforeEach r) (afterEach r) (listeners r) (currentHash r)
         (location_hash r) true (trace r).

Definition log (e : event) (r : router) : router :=
  Router (routes r) (currentRoute r) (defaultRoute r) (notFoundHandler r)
         (beforeEach r) (afterEach r) (listeners r) (currentHash r)
         (location_hash r) (hashchange_bound r) (trace r ++ [e]).

(** [a || b] on strings *)
Definition or_string (a b : string) : string :=
  if bool_decide (a = "") then b else a.

(** [new Router(options)]; an option left out is [None]. *)
Definition createRouter (defaultOption : option string)
    (notFound before after : option nat) (hash : string) : router :=
  let defaultRoute := or_string (default "" defaultOption) "/" in
  Router [] None defaultRoute notFound before after []
         (or_string (Dom.slice 1 hash) defaultRoute) hash false [].

Section router.
Context (env : environment).

(** [add(path, handler, meta = {})]; [None] when the pattern is outside
    of the fragment. *)
Definition add (path : string) (handler : nat) (meta : jsval) (r : router)
  : option router :=
  let pattern :=
    replace_wildcards (replace_params false (replace_slashes path)) in
  regexp ← RegExp 0 pattern;
  let paramNames := param_names None path in
  Some (set_routes (routes r ++ [Route path handler regexp paramNames meta]) r).

(** [params[key] = value] on the object [params], whose own properties
    are strings: the assignment to [__proto__] does nothing. *)
Definition set_property (key value : string) (params : gmap string string)
  : gmap string string :=
  if bool_decide (key = "__proto__") then params else <[key := value]> params.

(** [paramNames[index]] as a property key *)
Definition name_at (paramNames : list string) (index : nat) : string :=
  default "undefined" (paramNames !! index).

(** [matches.slice(1).forEach((value, index) => { ... })], from
    [index] on *)
Fixpoint assign_params (paramNames : list string) (index : nat)
    (values : list string) (params : gmap string string)
  : result (gmap string string) :=
  match values with
  | [] => Ok params
  | value :: rest =>
      decoded ← decodeURIComponent env value;
      assign_params paramNames (S index) rest
                    (set_property (name_at paramNames index) decoded params)
  end.

(** [match(path)]: the loop over [this.routes] *)
Fixpoint match_ (routes : list route) (path : string)
  : result (option (route * gmap string string)) :=
  match routes with
  | [] => Ok None
  | route :: rest =>
      match exec (regexp route) path with
      | Some captures =>
          params ←
            (if bool_decide (0 < length (paramNames route))%nat
             then assign_params (paramNames route) 0 captures ∅
             else Ok ∅);
          Ok (Some (route, params))
      | None => match_ rest path
      end
  end.

(** [notifyListeners(route)] *)
Definition notifyListeners (current : option route_info) (r : router) : router :=
  foldl (λ r listener, log (ListenerCalled listener current) r) r (listeners r).

(** How a call of [handleRouteChange] ends: its promise is fulfilled, or
    rejected with what [match] threw. *)
Inductive settled : Type :=
  | Fulfilled (r : router)
  | Rejected (e : jserror) (r : router).

Definition router_of (s : settled) : router :=
  match s with
  | Fulfilled r | Rejected _ r => r
  end.

(** [handleRouteChange(path)]; [None] is a call without argument.  The
    steps after [await] are taken as following at once. *)
Definition handleRouteChange (path : option string) (r : router) : settled :=
  let currentPath :=
    or_string (default "" path)
              (or_string (Dom.slice 1 (location_hash r)) (defaultRoute r)) in
  let r := set_currentHash currentPath r in
  match match_ (routes r) currentPath with
  | Throw e => Rejected e r
  | Ok matchedRoute =>
      let previousRoute := currentRoute r in
      let r :=
        set_currentRoute
          (match matchedRoute with
           | Some (route, params) => Some (RouteInfo currentPath params (meta route))
           | None => None
           end) r in
      let '(cancelled, r) :=
        match beforeEach r with
        | Some hook =>
            let next := call_beforeEach env hook (currentRoute r) previousRoute in
            (strict_eq next (JBool false),
             log (BeforeEachCalled hook (currentRoute r) previousRoute) r)
        | None => (false, r)
        end in
      if cancelled : bool then Fulfilled r
      else
        let r :=
          match matchedRoute with
          | Some (route, params) =>
              log (HandlerCalled (handler route) params (currentRoute r)) r
          | None =>
              match notFoundHandler r with
              | Some h => log (NotFoundCalled h currentPath) r
              | None => r
              end
          end in
        let r :=
          match afterEach r with
          | Some hook => log (AfterEachCalled hook (currentRoute r) previousRoute) r
          | None => r
          end in
        Fulfilled (notifyListeners (currentRoute r) r)
  end.

(** [navigate(path, { replace, silent })] *)
Definition navigate (path : string) (replace silent : bool) (r : router)
  : settled :=
  let fullPath := if Dom.starts_with "/" path then path else "/" ++ path in
  let r := log (LocationSet replace ("#" ++ fullPath))
               (set_location_hash ("#" ++ fullPath) r) in
  if silent then Fulfilled r else handleRouteChange (Some fullPath) r.

(** [onRouteChange(callback)]; the closure it returns is
    [removeListener] at the callback it captured. *)
Definition onRouteChange (callback : jsval) (r : router) : result (nat * router) :=
  match callback with
  | JFun f => Ok (f, set_listeners (listeners r ++ [f]) r)
  | _ => Throw (Error "Route change listener must be a function")
  end.

Definition removeListener (callback : nat) (r : router) : router :=
  match State.indexOf callback (listeners r) with
  | Some index => set_listeners (delete index (listeners r)) r
  | None => r
  end.

(** [getCurrentRoute()] *)
Definition getCurrentRoute (r : router) : option route_info := currentRoute r.

(** [init()] *)
Definition init (r : router) : settled :=
  handleRouteChange None (set_hashchange_bound r).
End router.

End Router.

(** ** Events ([events.js], the listing that follows the renderer in
    [dom.js])

    The registry [listeners] is an object used as a map from event names
    to arrays.  A name that every object inherits from [Object.prototype]
    reads as the inherited value, which is no array: the methods throw a
    [TypeError] on it.  The functions the application hands to [on] and
    [once] observe: they may throw, and they do not call back into the
    events system while they run.  The wrapper that [once] makes is a
    function of the framework; it does call back, into [off], and is
    embedded with what it does. *)

(** The names every object inherits from [Object.prototype]. *)
Definition Object_prototype : list string :=
  ["constructor"; "toString"; "toLocaleString"; "valueOf"; "hasOwnProperty";
   "isPrototypeOf"; "propertyIsEnumerable"; "__proto__"; "__defineGetter__";
   "__defineSetter__"; "__lookupGetter__"; "__lookupSetter__"].

Module Events.

(** A function in the registry: one handed to [on], known by its
    reference, or a wrapper made by [once], a new function at every call of
    [once], which holds the event name and the callback it was made for. *)
Inductive listener : Type :=
  | Handed (f : nat)
  | Wrapper (id : nat) (eventName : string) (callback : jsval).

(** [===] on these functions *)
Definition same_function (a b : listener) : bool :=
  match a, b with
  | Handed f, Handed g => bool_decide (f = g)
  | Wrapper i _ _, Wrapper j _ _ => bool_decide (i = j)
  | _, _ => false
  end.

Inductive event : Type :=
  | Called (f : nat) (args : list jsval)
  | ConsoleError (eventName : string).

Record bus : Type := Bus {
  listeners : gmap string (list listener);
  next_wrapper : nat;               (* the wrappers made so far *)
  trace : list event
}.

(** What the world provides: whether a function of the application throws
    when it is called with the arguments. *)
Record environment : Type := Environment {
  throws : nat → list jsval → bool
}.

Definition set_listeners (m : gmap string (list listener)) (b : bus) : bus :=
  Bus m (next_wrapper b) (trace b).

Definition log (e : event) (b : bus) : bus :=
  Bus (listeners b) (next_wrapper b) (trace b ++ [e]).

Definition inherited (eventName : string) : bool :=
  bool_decide (eventName ∈ Object_prototype).

(** [this.listeners[eventName].indexOf(callback)] *)
Fixpoint indexOf (callback : listener) (l : list listener) : option nat :=
  match l with
  | [] => None
  | f :: rest =>
      if same_function f callback then Some 0
      else S <$> indexOf callback rest
  end.

(** The part of [on] after the check of the callback: the array is created
    when the event has none, and the function is pushed. *)
Definition push (eventName : string) (callback : listener) (b : bus)
  : result bus :=
  if inherited eventName then Throw TypeError
  else
    Ok (set_listeners
          (<[eventName := (default [] (listeners b !! eventName) ++ [callback])%list]>
             (listeners b)) b).

(** [on(eventName, callback)]; the closure it returns is [off] at the same
    arguments. *)
Definition on (eventName : string) (callback : jsval) (b : bus)
  : result (listener * bus) :=
  match callback with
  | JFun f => b' ← push eventName (Handed f) b; mret (Handed f, b')
  | _ => Throw (Error "Event callback must be a function")
  end.

(** [off(eventName, callback)] *)
Definition off (eventName : string) (callback : listener) (b : bus)
  : result bus :=
  if inherited eventName then Throw TypeError
  else
    match listeners b !! eventName with
    | None => Ok b
    | Some l =>
        match indexOf callback l with
        | None => Ok b
        | Some index =>
            let l' := delete index l in
            if bool_decide (length l' = 0)
            then Ok (set_listeners (delete eventName (listeners b)) b)
            else Ok (set_listeners (<[eventName := l']> (listeners b)) b)
        end
    end.

Section events.
Context (env : environment).

(** The call of one listener inside the [try] of [emit]: what it throws
    is caught and reported.  A wrapper calls its callback and then [off];
    when the callback throws, or is no function, [off] is not reached. *)
Definition call_listener (eventName : string) (args : list jsval)
    (l : listener) (b : bus) : bus :=
  match l with
  | Handed f =>
      let b := log (Called f args) b in
      if throws env f args then log (ConsoleError eventName) b else b
  | Wrapper _ wrapped callback =>
      match callback with
      | JFun g =>
          let b := log (Called g args) b in
          if throws env g args then log (ConsoleError eventName) b
          else
            match off wrapped l b with
            | Ok b' => b'
            | Throw _ => log (ConsoleError eventName) b
            end
      | _ => log (ConsoleError eventName) b
      end
  end.

(** [array.forEach(...)] on the array of the event, which the wrappers
    change while it runs: the indices [k], [k + 1], ... below the length the
    array had at the start are visited, each one that the array still has
    at that time. *)
Fixpoint visit (eventName : string) (args : list jsval) (k count : nat)
    (b : bus) : bus :=
  match count with
  | 0 => b
  | S count' =>
      let b' :=
        match default [] (listeners b !! eventName) !! k with
        | Some l => call_listener eventName args l b
        | None => b
        end in
      visit eventName args (S k) count' b'
  end.

(** [emit(eventName, ...args)] *)
Definition emit (eventName : string) (args : list jsval) (b : bus)
  : result bus :=
  if inherited eventName then Throw TypeError
  else
    match listeners b !! eventName with
    | None => Ok b
    | Some l => Ok (visit eventName args 0 (length l) b)
    end.
End events.

(** [once(eventName, callback)]; the closure it returns is [off] at the
    wrapper. *)
Definition once (eventName : string) (callback : jsval) (b : bus)
  : result (listener * bus) :=
  let wrapper := Wrapper (next_wrapper b) eventName callback in
  b' ← push eventName wrapper
          (Bus (listeners b) (S (next_wrapper b)) (trace b));
  mret (wrapper, b').

(** [clear(eventName)]; [None] is a call without argument. *)
Definition clear (eventName : option string) (b : bus) : bus :=
  if truthy (JStr (default "" eventName))
  then set_listeners (delete (default "" eventName) (listeners b)) b
  else set_listeners ∅ b.

(** The events system as the module exports it. *)
Definition Events : bus := Bus ∅ 0 [].

End Events.

(** * What the properties are stated with *)

Local Open Scope list_scope.

Section dom_terms.
Import Dom.

(** The children sequence as the specification words it: every argument is
    taken in turn, an array argument contributes its own entries (and no
    deeper), and each entry is dropped, wrapped or passed through. *)
Definition normalize_entry (v : jsval) : list jsval :=
  match v with
  | JNull | JUndefined | JBool false => []
  | JStr s => [JText s]
  | JNum r => [JText r]
  | _ => [v]
  end.

Definition normalized_children (args : list jsval) : list jsval :=
  args ≫= (λ a, match a with
                | JArr items => items ≫= normalize_entry
                | _ => normalize_entry a
                end).

Definition is_dropped (v : jsval) : Prop :=
  v = JNull ∨ v = JUndefined ∨ v = JBool false.

Definition is_primitive_text (v : jsval) : Prop :=
  (∃ s, v = JStr s) ∨ (∃ r, v = JNum r).

Section positional.
Variable patch : jsval → jsval → option nat → M (option nat).
Variable render : jsval → option nat → M (option nat).

(** The same procedure in the words of the specification: one pass over
    the positions [0 .. max(len(new), len(old))], the live children being
    those the parent had when the pass began. *)
Fixpoint for_range (i count : nat) (body : nat → M unit) : M unit :=
  match count with
  | 0 => mret ()
  | S k => body i;; for_range (S i) k body
  end.

Definition positional_step (parent : option nat) (liveChild : list nat)
    (newChildren oldChildren : list jsval) (i : nat) : M unit :=
  match newChildren !! i, oldChildren !! i with
  | Some new, Some old => ignore (patch new old (liveChild !! i))
  | Some new, None => ignore (render new parent)
  | None, Some _ => removeChild parent (liveChild !! i)
  | None, None => mret ()
  end.

Definition updateChildren_positional (parent : option nat)
    (newChildren oldChildren : list jsval) : M unit :=
  liveChild ← get_childNodes parent;
  for_range 0 (length newChildren `max` length oldChildren)
            (positional_step parent liveChild newChildren oldChildren).
End positional.

(** A value that is no text node and has no tag (or an empty one). *)
Definition tagless (vNode : jsval) : Prop :=
  match vNode with
  | JText _ => False
  | JElem tag _ _ => tag = ""
  | _ => True
  end.

(** Two computations that agree on every document. *)
Definition same {A} (m1 m2 : M A) : Prop := ∀ d, m1 d = m2 d.

End dom_terms.

Section store_terms.
Import State.
Context (env : environment).

(** What the specification says of a computed property [name] with getter
    [getter], around one [setState(update)] on the store [st]: the call
    clears the cache; the read of [name] that follows invokes the getter,
    once, on the new state, returns its value and caches it; and any number
    of further reads return that value and leave the store, with its record
    of calls, as it is. *)
Definition computed_read_once (st : store) (update : jsval)
    (name : string) (getter : nat) : Prop :=
  let st1 := (setState env update st).2 in
  let value := call_getter env getter (state st1) in
  let read := λ s, (getState env (Some name) s).2 in
  computedCache st1 = ∅
  ∧ (getState env (Some name) st1).1 = Value value
  ∧ trace (read st1) = trace st1 ++ [GetterCalled getter (state st1)]
  ∧ computedCache (read st1) !! name = Some value
  ∧ ∀ n, Nat.iter n read (read st1) = read st1
         ∧ (getState env (Some name) (Nat.iter n read (read st1))).1 = Value value.

(** What the specification says of the closure returned by [subscribe]:
    called twice it leaves the store that one call leaves, and so the
    subscribers notified by whatever follows are the same. *)
Definition unsubscribe_idempotent (callback : nat) (st : store) : Prop :=
  unsubscribe callback (unsubscribe callback st) = unsubscribe callback st.

(** The number of entries a function has in a subscriber list. *)
Definition entries_of (callback : nat) (l : list nat) : nat :=
  length (List.filter (λ f, bool_decide (f = callback)) l).

End store_terms.

Section matching_terms.
Import Router.
Context (env : environment).

(** The parameters [match] builds for a route whose expression matched
    with the given captures. *)
Definition route_params (route : route) (captures : list string)
  : result (gmap string string) :=
  if bool_decide (0 < length (paramNames route))
  then assign_params env (paramNames route) 0 captures ∅
  else Ok ∅.

Definition no_match (path : string) (route : route) : Prop :=
  exec (regexp route) path = None.

(** The two routes of the example, as [add] compiles them. *)
Definition users_id (h : nat) (m : jsval) : route :=
  Route "/users/:id" h
        [Lit "/"; Lit "u"; Lit "s"; Lit "e"; Lit "r"; Lit "s"; Lit "/"; Segment]
        ["id"] m.

Definition users_id_tab (h : nat) (m : jsval) : route :=
  Route "/users/:id/:tab" h
        [Lit "/"; Lit "u"; Lit "s"; Lit "e"; Lit "r"; Lit "s"; Lit "/"; Segment;
         Lit "/"; Segment]
        ["id"; "tab"] m.

End matching_terms.

Section veto_terms.
Import Router.
Context (env : environment).

(** The path a call of [handleRouteChange] works on. *)
Definition effective_path (path : option string) (r : router) : string :=
  or_string (default "" path)
            (or_string (Dom.slice 1 (location_hash r)) (defaultRoute r)).

(** The candidate route of the call: what [match] finds for that path. *)
Definition candidate_route (path : option string) (r : router)
  : result (option route_info) :=
  matched ← match_ env (routes r) (effective_path path r);
  mret (match matched with
        | Some (route, params) =>
            Some (RouteInfo (effective_path path r) params (meta route))
        | None => None
        end).

(** The calls a router makes once the hook has let a transition through. *)
Definition after_veto (e : event) : Prop :=
  match e with
  | HandlerCalled _ _ _ | NotFoundCalled _ _ | AfterEachCalled _ _ _
  | ListenerCalled _ _ => True
  | _ => False
  end.

End veto_terms.

Section segment_terms.
Import Router.

(** A path as the specification describes it: a sequence of segments,
    each after a slash, a segment being literal text, a named parameter or
    the wildcard. *)
Inductive segment : Type :=
  | Literal (text : string)
  | Param (name : string)
  | Wild.

Definition segment_text (seg : segment) : string :=
  match seg with
  | Literal text => text
  | Param name => String ":" name
  | Wild => "**"
  end.

Fixpoint path_of (segs : list segment) : string :=
  match segs with
  | [] => ""
  | seg :: rest => String "/" (segment_text seg +:+ path_of rest)
  end.

Fixpoint all_chars (P : ascii → bool) (s : string) : bool :=
  match s with
  | EmptyString => true
  | String c rest => P c && all_chars P rest
  end.

(** A character of literal text: it has no meaning in a pattern, and is
    neither the colon nor the slash. *)
Definition plain (c : ascii) : bool :=
  negb (is_meta c) && negb (bool_decide (c = ":"%char))
  && negb (bool_decide (c = "/"%char)).

Definition well_formed (seg : segment) : Prop :=
  match seg with
  | Literal text => text ≠ "" ∧ all_chars plain text = true
  | Param name => name ≠ "" ∧ all_chars is_word name = true
  | Wild => True
  end.

Definition segment_tokens (seg : segment) : list token :=
  match seg with
  | Literal text => Lit <$> list_ascii_of_string text
  | Param _ => [Segment]
  | Wild => [Wildcard]
  end.

(** The expression of a path: a slash and the tokens of the segment, for
    each segment; a parameter and a wildcard are one capture group each. *)
Definition tokens_of (segs : list segment) : list token :=
  segs ≫= (λ seg, Lit "/" :: segment_tokens seg).

(** The names of a path: those of its parameters. *)
Definition names_of (segs : list segment) : list string :=
  segs ≫= (λ seg, match seg with Param name => [name] | _ => [] end).


(** What follows a segment: nothing, or the slash of the next one. *)
Definition at_boundary (tail : string) : Prop :=
  tail = "" ∨ ∃ s, tail = String "/" s.

Definition group_text (seg : segment) : string :=
  match seg with
  | Param _ => "([^/]+)"
  | _ => segment_text seg
  end.

Fixpoint params_replaced (segs : list segment) : string :=
  match segs with
  | [] => ""
  | seg :: rest => String "/" (group_text seg +:+ params_replaced rest)
  end.

Definition pattern_text (seg : segment) : string :=
  match seg with
  | Literal text => text
  | Param _ => "([^/]+)"
  | Wild => "(.*)"
  end.

Fixpoint pattern_of (segs : list segment) : string :=
  match segs with
  | [] => ""
  | seg :: rest => String "/" (pattern_text seg +:+ pattern_of rest)
  end.

Definition is_wild (seg : segment) : bool :=
  match seg with Wild => true | _ => false end.

End segment_terms.

Section wildcard_terms.
Import Router.
Context (env : environment).


End wildcard_terms.

(** ** Sample worlds, stores and routers *)

(** A world in which a getter returns the number of keys of the state. *)
Definition sample_environment : State.environment :=
  State.Environment (λ _ s, JNum (pretty (size s))) (λ _ _, JObj [])
                    (λ _, Ok "{}") (λ _, Ok JNull).

Definition empty_store : State.store :=
  State.createState sample_environment ∅ State.NoPersistence
                    "mini-framework-state" ∅.

(** The store after [computed(name, getter)] with the function [1]. *)
Definition store_with_computed (name : string) : State.store :=
  match State.computed name (JFun 1) empty_store with
  | Ok st => st
  | Throw _ => empty_store
  end.

(** The store after [subscribe] was called with the function [5], [n]
    times over. *)
Fixpoint store_subscribed (n : nat) : State.store :=
  match n with
  | 0 => empty_store
  | S k =>
      match State.subscribe (JFun 5) (store_subscribed k) with
      | Ok (_, st) => st
      | Throw _ => store_subscribed k
      end
  end.

Definition hex_digit (c : ascii) : option nat :=
  let n := nat_of_ascii c in
  if Router.in_range 48 57 c then Some (n - 48)
  else if Router.in_range 65 70 c then Some (n - 55)
  else if Router.in_range 97 102 c then Some (n - 87)
  else None.

(** A decoder for the escapes of characters below 128; it refuses the
    escapes of the others, which take several bytes. *)
Fixpoint percent_decode (s : string) : result string :=
  match s with
  | EmptyString => Ok EmptyString
  | String c rest =>
      if bool_decide (c = "%"%char) then
        match rest with
        | String h (String l rest') =>
            match hex_digit h, hex_digit l with
            | Some a, Some b =>
                if bool_decide (a < 8)
                then String (ascii_of_nat (16 * a + b)) <$> percent_decode rest'
                else Throw URIError
            | _, _ => Throw URIError
            end
        | _ => Throw URIError
        end
      else String c <$> percent_decode rest
  end.

(** A world whose [beforeEach] hook resolves to [false] for every
    transition. *)
Definition vetoing_environment : Router.environment :=
  Router.Environment percent_decode (λ _ _ _, JBool false).

(** A router with the hook [9], a listener [3] and one route, [/a]. *)
Definition guarded_router : Router.router :=
  let r := Router.createRouter None None (Some 9) None "" in
  let r := match Router.onRouteChange (JFun 3) r with
           | Ok (_, r') => r'
           | Throw _ => r
           end in
  default r (Router.add "/a" 1 (JObj []) r).

Definition users_router : Router.router :=
  Router.createRouter None None None None "".

(** ** What the further properties are stated with *)

Section store_more_terms.
Import State.

(** The events that are no notification of a subscriber. *)
Definition not_notification (e : event) : Prop :=
  match e with
  | Notified _ _ _ _ => False
  | _ => True
  end.

(** The notifications of one pass over the subscribers. *)
Definition notifications (subscribers : list nat)
    (newState oldState : gmap string jsval) (newValues : jsval) : list event :=
  (λ f, Notified f newState oldState newValues) <$> subscribers.

(** The value [setState] merges into the state. *)
Definition merge_source (env : environment) (update : jsval)
    (current : gmap string jsval) : jsval :=
  match update with
  | JFun f => call_update env f current
  | _ => update
  end.

(** One call of the API of a store. *)
Inductive call : Type :=
  | GetState (prop : option string)
  | SetState (update : jsval)
  | Subscribe (callback : jsval)
  | Unsubscribe (callback : nat)
  | Computed (name : string) (getter : jsval)
  | Reset (newInitial : option (gmap string jsval)).

(** The store after a call; a call that throws leaves it as it was. *)
Definition perform (env : environment) (st : store) (c : call) : store :=
  match c with
  | GetState prop => (getState env prop st).2
  | SetState update => (setState env update st).2
  | Subscribe callback =>
      match subscribe callback st with
      | Ok (_, st') => st'
      | Throw _ => st
      end
  | Unsubscribe callback => unsubscribe callback st
  | Computed name getter =>
      match computed name getter st with
      | Ok st' => st'
      | Throw _ => st
      end
  | Reset newInitial => (reset env newInitial st).2
  end.

Definition perform_all (env : environment) (st : store) (calls : list call)
  : store :=
  foldl (perform env) st calls.

Definition dot_free (s : string) : Prop := "."%char ∉ list_ascii_of_string s.

(** A world whose [JSON.stringify] fails. *)
Definition failing_environment : environment :=
  Environment (λ _ s, JNum (pretty (size s))) (λ _ _, JObj [])
              (λ _, Throw TypeError) (λ _, Ok JNull).

(** A world whose [JSON] knows two states, the empty one and the one
    with the single entry [a: 1]. *)
Definition json_environment : environment :=
  Environment (λ _ s, JNum (pretty (size s))) (λ _ _, JObj [])
    (λ s, if bool_decide (s = ∅) then Ok "{}" else Ok "{a:1}")
    (λ blob, if bool_decide (blob = "{}") then Ok (JObj [])
             else Ok (JObj [("a", JNum "1")])).

(** A store that persists to [localStorage], which holds one item of
    another key. *)
Definition persistent_store (env : environment) : store :=
  createState env ∅ LocalStorage "app" {["theme" := "dark"]}.

(** A store whose state has a nested object. *)
Definition nested_store : store :=
  createState sample_environment
    {["user" := JObj [("name", JStr "Ada")]]} NoPersistence
    "mini-framework-state" ∅.

End store_more_terms.

Section router_more_terms.
Import Router.
Context (env : environment).







(** The characters a URL fragment keeps as they are. *)
Definition fragment_safe (c : ascii) : bool :=
  in_range 33 126 c
  && negb (bool_decide (nat_of_ascii c ∈ [34; 60; 62; 96])).

End router_more_terms.

(** The route of [/users/**], as [add] compiles it. *)
Definition users_any (h : nat) (m : jsval) : Router.route :=
  Router.Route "/users/**" h
    [Router.Lit "/"; Router.Lit "u"; Router.Lit "s"; Router.Lit "e";
     Router.Lit "r"; Router.Lit "s"; Router.Lit "/"; Router.Wildcard]
    [] m.

(** A world whose [beforeEach] hook lets every transition through. *)
Definition permissive_environment : Router.environment :=
  Router.Environment percent_decode (λ _ _ _, JUndefined).

(** A router with the hooks [9] and [8], the not-found handler [7], the
    listeners [3] and [4] and the routes [/users/:id] and [/users/**]. *)
Definition hooked_router : Router.router :=
  let r := Router.createRouter None (Some 7) (Some 9) (Some 8) "" in
  let r := Router.set_listeners [3; 4] r in
  let r := default r (Router.add "/users/:id" 1 (JObj []) r) in
  default r (Router.add "/users/**" 2 (JObj []) r).

Section shape_terms.
Import Router.

(** The segments that capture: parameters and wildcards. *)
Definition capturing (seg : segment) : bool :=
  match seg with
  | Literal _ => false
  | _ => true
  end.

(** What a capturing segment can capture: a parameter a non-empty text
    without a slash, a wildcard any text without a line terminator. *)
Definition fits (seg : segment) (value : string) : Prop :=
  match seg with
  | Literal _ => False
  | Param _ => value ≠ "" ∧ all_chars not_slash value = true
  | Wild => all_chars is_dot value = true
  end.

(** The path that follows the segments, with the values in the places of
    the capturing segments. *)
Fixpoint fill (segs : list segment) (values : list string) : string :=
  match segs with
  | [] => ""
  | Literal text :: rest => String "/" (text +:+ fill rest values)
  | _ :: rest =>
      match values with
      | value :: values' => String "/" (value +:+ fill rest values')
      | [] => String "/" (fill rest [])
      end
  end.

End shape_terms.

(** A document with one element, the container of the application, and
    what it is after a paragraph with a class, or a text, was rendered into
    the container. *)
Definition sample_document : Dom.document :=
  Dom.Document {[0 := Dom.DomNode (Some "div") "" ∅ [] [] [] None]} 1.

Definition document_after_render (vNode : jsval) : Dom.document :=
  match Dom.render vNode (Some 0) sample_document with
  | Ok (_, d) => d
  | Throw _ => sample_document
  end.

Definition noted_paragraph : jsval :=
  JElem "p" (JObj [("className", JStr "note")]) [].

Section events_terms.
Import Events.
Context (env : environment).

(** A listener whose call leaves the registry as it is: a function handed
    to [on], and a wrapper whose callback throws or is no function. *)
Definition keeps (args : list jsval) (l : listener) : Prop :=
  match l with
  | Handed _ => True
  | Wrapper _ _ (JFun g) => throws env g args = true
  | Wrapper _ _ _ => True
  end.

(** The record of the call of such a listener by [emit]. *)
Definition reported (eventName : string) (args : list jsval) (l : listener)
  : list event :=
  match l with
  | Handed f | Wrapper _ _ (JFun f) =>
      Called f args
      :: (if throws env f args then [ConsoleError eventName] else [])
  | Wrapper _ _ _ => [ConsoleError eventName]
  end.

(** One call of the interface of the events system. *)
Inductive events_call : Type :=
  | On (eventName : string) (callback : jsval)
  | Off (eventName : string) (callback : listener)
  | Emit (eventName : string) (args : list jsval)
  | Once (eventName : string) (callback : jsval)
  | Clear (eventName : option string).

(** The events system after a call; a call that throws leaves it as it
    was. *)
Definition events_perform (b : bus) (c : events_call) : bus :=
  match c with
  | On eventName callback =>
      match on eventName callback b with
      | Ok (_, b') => b'
      | Throw _ => b
      end
  | Off eventName callback =>
      match off eventName callback b with
      | Ok b' => b'
      | Throw _ => b
      end
  | Emit eventName args =>
      match emit env eventName args b with
      | Ok b' => b'
      | Throw _ => b
      end
  | Once eventName callback =>
      match once eventName callback b with
      | Ok (_, b') => b'
      | Throw _ => b
      end
  | Clear eventName => clear eventName b
  end.

(** No event of the registry has an empty array. *)
Definition no_empty_array (b : bus) : Prop :=
  ∀ eventName l, listeners b !! eventName = Some l → l ≠ [].

End events_terms.

(** A world in which the function [6] throws and no other does. *)
Definition events_environment : Events.environment :=
  Events.Environment (λ f _, bool_decide (f = 6)).

(** The events system after the calls. *)
Definition bus_after (calls : list events_call) : Events.bus :=
  foldl (events_perform events_environment) Events.Events calls.

(** * Properties *)

(** ** Tree model constructor *)

Section tree_model.
Import Dom.

Lemma wrap_kept_entry (v : jsval) :
  (if kept v then [wrap v] else []) = normalize_entry v.
Proof. by destruct v as [| |[]| | | | | | |]. Qed.

Lemma wrap_filter_entries (items : list jsval) :
  wrap <$> List.filter kept items = items ≫= normalize_entry.
Proof.
  induction items as [|v items IH]; [done|].
  cbn [List.filter]. rewrite bind_cons, <- wrap_kept_entry, <- IH.
  by destruct (kept v).
Qed.

Lemma filter_kept_app (xs ys : list jsval) :
  List.filter kept (xs ++ ys) = List.filter kept xs ++ List.filter kept ys.
Proof. apply List.filter_app. Qed.

Lemma createElement_children (tag : string) (attrs : jsval) (args : list jsval) :
  children_of (createElement tag attrs args) = normalized_children args.
Proof.
  unfold createElement, normalized_children, flat; cbn [children_of].
  induction args as [|a args IH]; [done|].
  rewrite !bind_cons, filter_kept_app, fmap_app, IH. f_equal.
  destruct a; try (rewrite wrap_filter_entries; by rewrite ?bind_cons, ?bind_nil, ?app_nil_r).
Qed.

Lemma normalize_entry_clean (v c : jsval) :
  c ∈ normalize_entry v → ¬ is_dropped c ∧ ¬ is_primitive_text c.
Proof.
  unfold is_dropped, is_primitive_text.
  destruct v as [| |[]| | | | | | |]; cbn; intros Hc;
    try (by apply elem_of_nil in Hc);
    apply list_elem_of_singleton in Hc; subst c;
    (split; [by intros [|[|]] | by intros [[? ?]|[? ?]]]).
Qed.

Lemma normalized_children_clean (args : list jsval) (c : jsval) :
  c ∈ normalized_children args → ¬ is_dropped c ∧ ¬ is_primitive_text c.
Proof.
  unfold normalized_children. intros Hc.
  apply list_elem_of_bind in Hc as (a & Hc & _).
  destruct a; try (by eapply normalize_entry_clean).
  apply list_elem_of_bind in Hc as (v & Hc & _).
  by eapply normalize_entry_clean.
Qed.

(** C2.  For every argument list of [createElement], the children of the
    node it builds are the arguments taken in order, an array argument
    standing for its own entries and no deeper, each entry dropped when it
    is [null], [undefined] or [false], wrapped as a text node carrying its
    string form when it is a string or a number, and passed through
    otherwise.  Hence no child is [null], [undefined], [false], a bare
    string or a bare number; a node given as argument is a child as it is;
    and an array inside an array argument stays an array. *)
Theorem createElement_normalizes_children
    (tag : string) (attrs : jsval) (args : list jsval) :
  let children := children_of (createElement tag attrs args) in
  children = normalized_children args
  ∧ (∀ c, c ∈ children → ¬ is_dropped c ∧ ¬ is_primitive_text c)
  ∧ (∀ s, children_of (createElement tag attrs [JStr s]) = [JText s])
  ∧ (∀ n, children_of (createElement tag attrs [JNum n]) = [JText (String_ (JNum n))])
  ∧ (∀ t a cs, children_of (createElement tag attrs [JElem t a cs]) = [JElem t a cs])
  ∧ (∀ v, children_of (createElement tag attrs [JText v]) = [JText v])
  ∧ (∀ inner, children_of (createElement tag attrs [JArr [JArr inner]]) = [JArr inner]).
Proof.
  cbn zeta. split; [apply createElement_children|].
  split; [|by repeat split].
  intros c. rewrite createElement_children. apply normalized_children_clean.
Qed.

End tree_model.

(** ** Renderer *)

Section renderer.
Import Dom.

(** Rendering a tagless value other than [null] and [undefined] returns
    [null] and leaves the document as it is. *)
Lemma render_tagless (vNode : jsval) (container : option nat) (d : document) :
  tagless vNode → vNode ≠ JNull → vNode ≠ JUndefined →
  render vNode container d = Ok (None, d).
Proof.
  destruct vNode; cbn; try done.
  intros ->. done.
Qed.

(** C9.  What [render] does with an empty node: [false], an object
    without a tag and a node with an empty tag are skipped, the document
    unchanged and [null] returned; [null] and [undefined] are not: the
    read of [vNode.type] in the first statement throws a [TypeError]
    before the guard that was to skip them is reached. *)
Theorem render_null_throws (container : option nat) (d : document) :
  render JNull container d = Throw TypeError
  ∧ render JUndefined container d = Throw TypeError
  ∧ render (JBool false) container d = Ok (None, d)
  ∧ render (JObj []) container d = Ok (None, d)
  ∧ (∀ attrs children, render (JElem "" attrs children) container d = Ok (None, d)).
Proof. by repeat split. Qed.

End renderer.

(** ** Reconciler: the children pass *)

Section children_pass.
Import Dom.

Variable patch : jsval → jsval → option nat → M (option nat).
Variable render : jsval → option nat → M (option nat).

Lemma same_bind {A B} (m1 m2 : M A) (k1 k2 : A → M B) :
  same m1 m2 → (∀ a, same (k1 a) (k2 a)) → same (m1 ≫= k1) (m2 ≫= k2).
Proof.
  intros Hm Hk d. unfold mbind, M_bind. rewrite Hm.
  destruct (m2 d) as [[a d']|e]; [apply Hk | done].
Qed.

Lemma bind_assoc_M {A B C} (m : M A) (k1 : A → M B) (k2 : B → M C) :
  same ((m ≫= k1) ≫= k2) (m ≫= λ a, k1 a ≫= k2).
Proof.
  intros d. unfold mbind, M_bind.
  by destruct (m d) as [[a d']|e].
Qed.

Lemma for_range_ext (i count : nat) (body1 body2 : nat → M unit) :
  (∀ j, i ≤ j < i + count → same (body1 j) (body2 j)) →
  same (for_range i count body1) (for_range i count body2).
Proof.
  revert i. induction count as [|k IH]; intros i Hbody; [done|].
  cbn [for_range]. apply same_bind; [apply Hbody; lia|].
  intros _. apply IH. intros j Hj. apply Hbody. lia.
Qed.

Lemma for_range_app (i c1 c2 : nat) (body : nat → M unit) :
  same (for_range i (c1 + c2) body)
       (for_range i c1 body;; for_range (i + c1) c2 body).
Proof.
  revert i. induction c1 as [|k IH]; intros i.
  - cbn [for_range Nat.add]. rewrite Nat.add_0_r. done.
  - cbn [for_range Nat.add]. intros d.
    rewrite bind_assoc_M. revert d. apply same_bind; [done|].
    intros _ d. rewrite IH. by replace (S i + k) with (i + S k) by lia.
Qed.

Lemma remove_extra_range (parent : option nat) (childNodes : list nat)
    (i count : nat) :
  same (remove_extra parent childNodes i count)
       (for_range i count (λ j, removeChild parent (childNodes !! j))).
Proof.
  revert i. induction count as [|k IH]; intros i; [done|].
  cbn [remove_extra for_range]. apply same_bind; [done|]. intros _. apply IH.
Qed.

Lemma update_or_add_range (parent : option nat) (childNodes : list nat)
    (oldChildren prefix news : list jsval) :
  same (update_or_add patch render parent childNodes oldChildren
                      (length prefix) news)
       (for_range (length prefix) (length news)
          (positional_step patch render parent childNodes
                           (prefix ++ news) oldChildren)).
Proof.
  revert prefix. induction news as [|new rest IH]; intros prefix; [done|].
  cbn [update_or_add for_range length]. apply same_bind.
  - unfold positional_step.
    rewrite list_lookup_middle by done.
    case_bool_decide as Hi.
    + destruct (lookup_lt_is_Some_2 oldChildren _ Hi) as [old Hold].
      rewrite Hold. by rewrite (nth_lookup_Some _ _ _ _ Hold).
    + rewrite (lookup_ge_None_2 oldChildren) by lia. done.
  - intros _. specialize (IH (prefix ++ [new])).
    rewrite length_app, Nat.add_1_r, <- app_assoc in IH. apply IH.
Qed.

Lemma updateChildren_with_positional (parent : option nat)
    (newChildren oldChildren : list jsval) :
  same (updateChildren_with patch render parent newChildren oldChildren)
       (updateChildren_positional patch render parent newChildren oldChildren).
Proof.
  unfold updateChildren_with, updateChildren_positional.
  apply same_bind; [done|]. intros childNodes d.
  replace (length newChildren `max` length oldChildren)
    with (length newChildren + (length oldChildren - length newChildren)) by lia.
  rewrite for_range_app. revert d. apply same_bind.
  - apply (update_or_add_range parent childNodes oldChildren [] newChildren).
  - intros _ d. rewrite remove_extra_range. revert d.
    apply for_range_ext. intros j Hj. unfold positional_step.
    rewrite (lookup_ge_None_2 newChildren) by lia.
    destruct (lookup_lt_is_Some_2 oldChildren j) as [old ->]; [lia|done].
Qed.

End children_pass.

(** C3.  [updateChildren] works position by position.  With the live
    children being those the parent had when the pass began, it does what
    one pass over the positions [0 .. max(len(new), len(old))] does that, at
    a position within both sequences, patches the new child against the old
    one on the live child of that position; at a position within the new
    sequence only, renders the child into the parent, which appends it; and
    at a position within the old sequence only, removes the live child of
    that position from the parent.  The two end in the same document, or
    throw the same error. *)
Theorem updateChildren_index_positional
    (parent : option nat) (newChildren oldChildren : list jsval)
    (d : Dom.document) :
  Dom.updateChildren parent newChildren oldChildren d
  = updateChildren_positional Dom.patch Dom.render
      parent newChildren oldChildren d.
Proof. apply updateChildren_with_positional. Qed.

(** ** State store *)

Section state_store.
Import State.
Context (env : environment).

Lemma spread_union (props : list (string * jsval)) (target : gmap string jsval) :
  spread target (JObj props) = list_to_map (reverse props) ∪ target.
Proof.
  unfold spread; cbn [entries].
  revert target. induction props as [|[k v] props IH]; intros target.
  - cbn. by rewrite (left_id_L ∅ (∪)).
  - cbn [foldl]. rewrite IH, reverse_cons, list_to_map_app. cbn.
    rewrite <- (assoc_L (∪)). f_equal.
    by rewrite <- insert_union_l, (left_id_L ∅ (∪)).
Qed.

(** The shallow merge of a state with a plain mapping: the keys of the
    mapping override those of the state. *)
Lemma spread_mapping (x target : gmap string jsval) :
  spread target (state_object x) = x ∪ target.
Proof.
  unfold state_object. rewrite spread_union. f_equal.
  symmetry. apply list_to_map_flip. by rewrite reverse_Permutation.
Qed.

(** [saveState] writes to the backend and to the console only. *)
Ltac saveState_cases st :=
  unfold saveState;
  destruct (persistence_target st) as [| | |? []]; try done;
  by destruct (JSON_stringify env (state st)).

Lemma state_saveState (st : store) : state (saveState env st) = state st.
Proof. saveState_cases st. Qed.

Lemma computedCache_saveState (st : store) :
  computedCache (saveState env st) = computedCache st.
Proof. saveState_cases st. Qed.

Lemma computedProperties_saveState (st : store) :
  computedProperties (saveState env st) = computedProperties st.
Proof. saveState_cases st. Qed.

Lemma notify_fields (oldState : gmap string jsval) (newValues : jsval)
    (st : store) :
  state (notify oldState newValues st) = state st
  ∧ computedCache (notify oldState newValues st) = computedCache st
  ∧ computedProperties (notify oldState newValues st) = computedProperties st.
Proof.
  unfold notify. generalize (subscribers st) as l. intros l.
  revert st. induction l as [|f l IH]; intros st; [done|].
  cbn [foldl]. destruct (IH (log (Notified f (state st) oldState newValues) st))
    as (-> & -> & ->). done.
Qed.

(** The store after [setState]: the state is the merge, the cache is
    empty, the computed properties are as before. *)
Lemma setState_store (update : jsval) (st : store) :
  let newValues :=
    match update with JFun f => call_update env f (state st) | _ => update end in
  let st' := (setState env update st).2 in
  (setState env update st).1 = Snapshot (spread (state st) newValues)
  ∧ state st' = spread (state st) newValues
  ∧ computedCache st' = ∅
  ∧ computedProperties st' = computedProperties st.
Proof.
  cbn zeta. unfold setState.
  set (p := match update with JFun f => _ | _ => _ end).
  assert (p.1 = match update with JFun f => call_update env f (state st) | _ => update end
          ∧ state p.2 = state st ∧ computedProperties p.2 = computedProperties st)
    as (Hv & Hs & Hc) by (subst p; by destruct update).
  destruct p as [newValues st0]; cbn in Hv, Hs, Hc. subst newValues.
  cbn [getState fst snd].
  set (st1 := set_computedCache ∅ _).
  destruct (notify_fields (state st) (match update with JFun f => call_update env f (state st) | _ => update end) (saveState env st1))
    as (Hn1 & Hn2 & Hn3).
  rewrite Hn1, Hn2, Hn3, state_saveState, computedCache_saveState,
    computedProperties_saveState.
  subst st1; cbn. by rewrite Hs, Hc.
Qed.

(** C1.  For every store, whatever its state [S], and every plain
    mapping [x], [setState(x)] returns the shallow merge of [S] with [x],
    the keys of [x] overriding those of [S], and [getState()] called next
    returns the same. *)
Theorem setState_getState_roundtrip (st : store) (x : gmap string jsval) :
  let '(returned, st') := setState env (state_object x) st in
  returned = Snapshot (x ∪ state st)
  ∧ (getState env None st').1 = Snapshot (x ∪ state st).
Proof.
  destruct (setState env (state_object x) st) as [returned st'] eqn:E.
  destruct (setState_store (state_object x) st) as (H1 & H2 & _).
  rewrite E in H1, H2. cbn [fst snd] in H1, H2.
  change (match state_object x with
          | JFun f => call_update env f (state st)
          | _ => state_object x
          end) with (state_object x) in H1, H2.
  rewrite spread_mapping in H1, H2. split; [done|].
  cbn. by rewrite H2.
Qed.

Lemma getState_registered (st : store) (name : string) (getter : nat) :
  name ≠ "" → computedProperties st !! name = Some getter →
  getState env (Some name) st =
    match computedCache st !! name with
    | Some cached => (Value cached, st)
    | None =>
        (Value (call_getter env getter (state st)),
         set_computedCache
           (<[name := call_getter env getter (state st)]> (computedCache st))
           (log (GetterCalled getter (state st)) st))
    end.
Proof.
  intros Hname Hreg. unfold getState.
  rewrite bool_decide_eq_false_2 by done. by rewrite Hreg.
Qed.

(** C7, amended.  For every computed property registered under a name
    other than the empty string, [setState] clears the cache, the next
    [getState(name)] invokes the getter exactly once and caches its result,
    and every later [getState(name)] before the next mutation returns the
    cached value without invoking the getter again. *)
Theorem computed_cache_read_once (st : store) (update : jsval)
    (name : string) (getter : nat) :
  name ≠ "" → computedProperties st !! name = Some getter →
  computed_read_once env st update name getter.
Proof.
  intros Hname Hreg. unfold computed_read_once. cbn zeta.
  destruct (setState_store update st) as (_ & _ & Hcache & Hprops).
  cbn zeta in Hcache, Hprops.
  set (st1 := (setState env update st).2) in *.
  assert (computedProperties st1 !! name = Some getter) as Hreg1
    by (by rewrite Hprops).
  pose proof (getState_registered st1 name getter Hname Hreg1) as Hread.
  rewrite Hcache, lookup_empty in Hread.
  rewrite Hread; cbn [fst snd].
  set (st2 := set_computedCache _ _) in *.
  assert (getState env (Some name) st2
          = (Value (call_getter env getter (state st1)), st2)) as Hagain.
  { rewrite (getState_registered st2 name getter Hname) by done.
    subst st2; cbn [computedCache set_computedCache].
    by rewrite lookup_insert_eq. }
  assert (∀ n, Nat.iter n (λ s, (getState env (Some name) s).2) st2 = st2)
    as Hiter.
  { induction n as [|n IH]; [done|].
    rewrite Nat.iter_succ, IH. by rewrite Hagain. }
  repeat split; try done.
  - subst st2; cbn. by rewrite lookup_insert_eq.
  - by rewrite Hiter, Hagain.
Qed.

Lemma unsubscribe_list (callback : nat) (st : store) :
  subscribers (unsubscribe callback st)
  = match indexOf callback (subscribers st) with
    | Some index => delete index (subscribers st)
    | None => subscribers st
    end.
Proof. unfold unsubscribe. by destruct (indexOf _ _). Qed.

Lemma unsubscribe_store (callback : nat) (st : store) :
  unsubscribe callback st
  = set_subscribers (subscribers (unsubscribe callback st)) st.
Proof. unfold unsubscribe. destruct (indexOf _ _); by destruct st. Qed.

Lemma indexOf_None (callback : nat) (l : list nat) :
  indexOf callback l = None ↔ callback ∉ l.
Proof.
  induction l as [|f l IH]; cbn.
  - split; [intros _; apply not_elem_of_nil | done].
  - rewrite not_elem_of_cons. case_bool_decide as Hf.
    + split; [done | by intros [? _]].
    + rewrite fmap_None, IH.
      split; [intros ?; split; [congruence | done] | by intros [_ ?]].
Qed.

Lemma indexOf_Some_lt (callback : nat) (l : list nat) (i : nat) :
  indexOf callback l = Some i → i < length l.
Proof.
  revert i. induction l as [|f l IH]; intros i; cbn; [done|].
  case_bool_decide.
  - intros [= <-]. lia.
  - destruct (indexOf callback l) as [j|]; cbn; [|done].
    intros [= <-]. specialize (IH j eq_refl). lia.
Qed.

Lemma indexOf_app_l (callback : nat) (l l' : list nat) (i : nat) :
  indexOf callback l = Some i → indexOf callback (l ++ l') = Some i.
Proof.
  revert i. induction l as [|f l IH]; intros i; cbn; [done|].
  case_bool_decide; [done|].
  destruct (indexOf callback l) as [j|]; cbn; [|done].
  intros [= <-]. by rewrite (IH j eq_refl).
Qed.

Lemma indexOf_app_r (callback : nat) (l : list nat) :
  callback ∉ l → indexOf callback (l ++ [callback]) = Some (length l).
Proof.
  induction l as [|f l IH]; cbn.
  - intros _. by rewrite bool_decide_eq_true_2.
  - rewrite not_elem_of_cons. intros [Hne Hl].
    rewrite bool_decide_eq_false_2 by done. by rewrite IH.
Qed.

(** A call of the closure is a no-op exactly when the callback is not in
    the subscriber list. *)
Lemma unsubscribe_noop (callback : nat) (st : store) :
  unsubscribe callback st = st ↔ callback ∉ subscribers st.
Proof.
  rewrite <- indexOf_None. unfold unsubscribe.
  destruct (indexOf callback (subscribers st)) as [i|] eqn:Hi; [|done].
  split; [|done]. intros Heq. apply (f_equal subscribers) in Heq.
  apply (f_equal length) in Heq. cbn in Heq.
  apply indexOf_Some_lt in Hi.
  rewrite length_delete in Heq by (by apply lookup_lt_is_Some_2). lia.
Qed.

Lemma indexOf_first (callback : nat) (earlier later : list nat) :
  callback ∉ earlier →
  indexOf callback (earlier ++ callback :: later) = Some (length earlier).
Proof.
  intros Hfresh.
  replace (earlier ++ callback :: later)
    with ((earlier ++ [callback]) ++ later) by (by rewrite <- app_assoc).
  by apply indexOf_app_l, indexOf_app_r.
Qed.

(** The closure removes the first entry of its callback and keeps the
    others in their order. *)
Lemma unsubscribe_first (callback : nat) (st : store)
    (earlier later : list nat) :
  subscribers st = earlier ++ callback :: later → callback ∉ earlier →
  unsubscribe callback st = set_subscribers (earlier ++ later) st.
Proof.
  intros Hsubs Hfresh. unfold unsubscribe.
  rewrite Hsubs, indexOf_first by done. by rewrite delete_middle.
Qed.

(** A function that is in a list has a first entry there. *)
Lemma first_entry (callback : nat) (l : list nat) :
  callback ∈ l →
  ∃ earlier later, l = earlier ++ callback :: later ∧ callback ∉ earlier.
Proof.
  induction l as [|f l IH]; [by intros ?%elem_of_nil|].
  destruct (decide (f = callback)) as [->|Hne].
  - intros _. exists [], l. split; [done | apply not_elem_of_nil].
  - intros [?|Hin]%elem_of_cons; [congruence|].
    destruct (IH Hin) as (earlier & later & -> & Hfresh).
    exists (f :: earlier), later. split; [done|].
    apply not_elem_of_cons. split; [congruence | done].
Qed.

Lemma entries_of_app (callback : nat) (l l' : list nat) :
  entries_of callback (l ++ l') = entries_of callback l + entries_of callback l'.
Proof. unfold entries_of. by rewrite List.filter_app, length_app. Qed.

Lemma entries_of_0 (callback : nat) (l : list nat) :
  entries_of callback l = 0 ↔ callback ∉ l.
Proof.
  unfold entries_of. induction l as [|f l IH]; cbn.
  - split; [intros _; apply not_elem_of_nil | done].
  - rewrite not_elem_of_cons. case_bool_decide as Hf; cbn.
    + split; [done | intros [? _]; congruence].
    + rewrite IH. split; [intros ?; split; [congruence | done] | by intros [_ ?]].
Qed.

Lemma entries_of_cons_same (callback : nat) (l : list nat) :
  entries_of callback (callback :: l) = S (entries_of callback l).
Proof. unfold entries_of. cbn. by rewrite bool_decide_eq_true_2. Qed.

(** When the closure is called twice: the calls leave what one call
    leaves exactly when the callback has at most one entry. *)
Lemma unsubscribe_idempotent_entries (callback : nat) (st : store) :
  unsubscribe_idempotent callback st
  ↔ (entries_of callback (subscribers st) ≤ 1)%nat.
Proof.
  unfold unsubscribe_idempotent. rewrite unsubscribe_noop.
  destruct (decide (callback ∈ subscribers st)) as [Hin|Hout].
  - destruct (first_entry _ _ Hin) as (earlier & later & Hsubs & Hfresh).
    rewrite (unsubscribe_first _ _ _ _ Hsubs Hfresh).
    cbn [subscribers set_subscribers].
    rewrite Hsubs, entries_of_app, entries_of_cons_same.
    pose proof (proj2 (entries_of_0 callback earlier) Hfresh) as Hnone.
    split.
    + intros [_ Hlater]%not_elem_of_app.
      apply entries_of_0 in Hlater. lia.
    + intros Hone. apply not_elem_of_app. split; [done|].
      apply entries_of_0. lia.
  - rewrite (proj2 (unsubscribe_noop callback st) Hout).
    split; [|done]. intros _. apply entries_of_0 in Hout. lia.
Qed.

(** C8, amended.  The closure returned by [subscribe(callback)] captures
    the callback, not an entry of the list.  Whatever the subscriber list is
    when the closure is called, two calls have the effect of one, on the
    list and on every notification that follows, exactly when the callback
    has at most one entry in the list at the time of the first call: that
    call removes the entry, if there is one, and further calls are no-ops.
    When the function has more entries, because it was subscribed again
    before or after, each call of the closure removes one more of them, the
    first remaining one, and keeps the others in their order. *)
Theorem unsubscribe_twice_as_once (st0 st1 : store) (callback closure : nat) :
  subscribe (JFun callback) st0 = Ok (closure, st1) →
  closure = callback
  ∧ subscribers st1 = subscribers st0 ++ [callback]
  ∧ ∀ st,
      (unsubscribe_idempotent closure st
       ↔ (entries_of callback (subscribers st) ≤ 1)%nat)
      ∧ ((entries_of callback (subscribers st) ≤ 1)%nat →
         ∀ update,
           setState env update (unsubscribe closure (unsubscribe closure st))
           = setState env update (unsubscribe closure st))
      ∧ (callback ∉ subscribers st → unsubscribe closure st = st)
      ∧ (∀ earlier later,
           subscribers st = earlier ++ callback :: later →
           callback ∉ earlier →
           unsubscribe closure st = set_subscribers (earlier ++ later) st
           ∧ entries_of callback (subscribers (unsubscribe closure st)) + 1
             = entries_of callback (subscribers st)).
Proof.
  intros [= <- <-]. split; [done|]. split; [done|]. intros st.
  split; [apply unsubscribe_idempotent_entries|].
  split.
  { intros Hone update. f_equal. by apply unsubscribe_idempotent_entries. }
  split; [by apply unsubscribe_noop|].
  intros earlier later Hsubs Hfresh.
  rewrite (unsubscribe_first _ _ _ _ Hsubs Hfresh). split; [done|].
  cbn [subscribers set_subscribers].
  rewrite Hsubs, !entries_of_app, entries_of_cons_same. lia.
Qed.

End state_store.

(** *** The store on concrete inputs *)

Lemma computed_cache_read_once_witness :
  "total" ≠ ""
  ∧ State.computedProperties (store_with_computed "total") !! "total" = Some 1
  ∧ computed_read_once sample_environment (store_with_computed "total")
      (JObj [("a", JNum "1")]) "total" 1.
Proof.
  split; [done|]. split; [reflexivity|].
  apply computed_cache_read_once; [done | reflexivity].
Defined.

(** C7 as stated fails for the name that is the empty string:
    [getState('')] takes the branch of a call without argument, returns the
    snapshot and never invokes the getter registered under that name. *)
Lemma computed_empty_name_never_read :
  State.computedProperties (store_with_computed "") !! "" = Some 1
  ∧ ¬ computed_read_once sample_environment (store_with_computed "")
        (JObj [("a", JNum "1")]) "" 1.
Proof.
  split; [reflexivity|]. intros (_ & Hread & _). discriminate Hread.
Qed.

Lemma unsubscribe_twice_as_once_witness :
  State.subscribe (JFun 5) (store_subscribed 0) = Ok (5, store_subscribed 1)
  ∧ (unsubscribe_idempotent 5 (store_subscribed 1)
     ↔ (entries_of 5 (State.subscribers (store_subscribed 1)) ≤ 1)%nat)
  ∧ (unsubscribe_idempotent 5 (store_subscribed 2)
     ↔ (entries_of 5 (State.subscribers (store_subscribed 2)) ≤ 1)%nat).
Proof.
  split; [reflexivity|].
  destruct (unsubscribe_twice_as_once sample_environment
              (store_subscribed 0) (store_subscribed 1) 5 5 eq_refl)
    as (_ & _ & Hcalls).
  split; [apply (Hcalls (store_subscribed 1)) | apply (Hcalls (store_subscribed 2))].
Defined.

(** C8 as stated fails when the function has two entries, whichever
    [subscribe] the closure comes from: the first call of the closure
    removes one and the second call the other, so that a later [setState]
    notifies the function once after one call and not at all after two. *)
Lemma unsubscribe_twice_differs :
  State.subscribe (JFun 5) (store_subscribed 1) = Ok (5, store_subscribed 2)
  ∧ ¬ unsubscribe_idempotent 5 (store_subscribed 2)
  ∧ State.subscribers (State.unsubscribe 5 (store_subscribed 2)) = [5]
  ∧ State.subscribers
      (State.unsubscribe 5 (State.unsubscribe 5 (store_subscribed 2))) = []
  ∧ State.trace
      (State.setState sample_environment (JObj [])
         (State.unsubscribe 5 (store_subscribed 2))).2
    = [State.Notified 5 ∅ ∅ (JObj [])]
  ∧ State.trace
      (State.setState sample_environment (JObj [])
         (State.unsubscribe 5 (State.unsubscribe 5 (store_subscribed 2)))).2
    = [].
Proof.
  split; [reflexivity|]. split; [|by repeat split].
  intros Hidem. apply (f_equal State.subscribers) in Hidem. discriminate Hidem.
Qed.

(** ** Router: matching *)

Section router_matching.
Import Router.
Context (env : environment).

Lemma match_skips (before rest : list route) (path : string) :
  Forall (no_match path) before →
  match_ env (before ++ rest) path = match_ env rest path.
Proof.
  induction 1 as [|route before Hroute _ IH]; [done|].
  cbn [app match_]. unfold no_match in Hroute. by rewrite Hroute.
Qed.

Lemma match_first_matching (before after : list route) (route : route)
    (path : string) (captures : list string) :
  Forall (no_match path) before →
  exec (regexp route) path = Some captures →
  match_ env (before ++ route :: after) path
  = (params ← route_params env route captures; mret (Some (route, params))).
Proof.
  intros Hbefore Hroute. rewrite match_skips by done.
  cbn [match_]. by rewrite Hroute.
Qed.

Lemma match_head (after : list route) (route : route)
    (path : string) (captures : list string) :
  exec (regexp route) path = Some captures →
  match_ env (route :: after) path
  = (params ← route_params env route captures; mret (Some (route, params))).
Proof. apply (match_first_matching [] after route path captures). done. Qed.

Lemma match_none (routes : list route) (path : string) :
  Forall (no_match path) routes → match_ env routes path = Ok None.
Proof.
  intros Hall. rewrite <- (app_nil_r routes). by rewrite match_skips.
Qed.

(** Every parameter value is the decoding of a capture. *)
Lemma assign_params_decoded (names : list string) (index : nat)
    (captures : list string) (start params : gmap string string) :
  assign_params env names index captures start = Ok params →
  ∀ key value, params !! key = Some value →
    start !! key = Some value
    ∨ ∃ capture, capture ∈ captures
                 ∧ decodeURIComponent env capture = Ok value.
Proof.
  revert index start. induction captures as [|capture captures IH];
    intros index start; cbn [assign_params].
  - intros [= ->] key value Hkey. by left.
  - destruct (decodeURIComponent env capture) as [decoded|e] eqn:Hdec; [|done].
    cbn. intros Hrest key value Hkey.
    destruct (IH _ _ Hrest key value Hkey) as [Hstart|(c & Hc & Hv)].
    + unfold set_property in Hstart. case_bool_decide; [by left|].
      apply lookup_insert_Some in Hstart as [[_ <-]|[_ Hstart]]; [|by left].
      right. exists capture. split; [apply list_elem_of_here | done].
    + right. exists c. split; [by apply list_elem_of_further | done].
Qed.

Lemma add_users_id (h : nat) (m : jsval) (r : router) :
  add "/users/:id" h m r = Some (set_routes (routes r ++ [users_id h m]) r).
Proof.
  unfold add, users_id.
  replace (RegExp 0 _) with (Some (regexp (users_id h m)))
    by (vm_compute; reflexivity).
  replace (param_names None _) with ["id"] by (vm_compute; reflexivity).
  done.
Qed.

Lemma add_users_id_tab (h : nat) (m : jsval) (r : router) :
  add "/users/:id/:tab" h m r
  = Some (set_routes (routes r ++ [users_id_tab h m]) r).
Proof.
  unfold add, users_id_tab.
  replace (RegExp 0 _) with (Some (regexp (users_id_tab h m)))
    by (vm_compute; reflexivity).
  replace (param_names None _) with ["id"; "tab"] by (vm_compute; reflexivity).
  done.
Qed.

Lemma set_property_plain (key value : string) (params : gmap string string) :
  key ≠ "__proto__" → set_property key value params = <[key := value]> params.
Proof. intros Hkey. unfold set_property. by rewrite bool_decide_eq_false_2. Qed.

(** C4.  [add] puts a route at the end of the route table, and [match]
    tries the routes in that order, the first one whose expression matches
    the path winning: the routes before it that do not match are passed
    over, those after it are not looked at, and when none matches the
    result is [null].  The parameters of the
    winning route are the decoded captures.  With [/users/:id] and
    [/users/:id/:tab] registered in this order, [/users/42] matches the
    first with the parameters [{id: "42"}]; with [/users/:id/:tab] alone,
    [/users/42/settings] yields [{id: "42", tab: "settings"}]. *)
Theorem match_first_registered_wins :
  decodeURIComponent env "42" = Ok "42" →
  decodeURIComponent env "settings" = Ok "settings" →
  (∀ p h m r r', add p h m r = Some r' →
     ∃ route, routes r' = routes r ++ [route]
              ∧ path route = p ∧ handler route = h ∧ meta route = m)
  ∧ (∀ before after route path captures,
     Forall (no_match path) before →
     exec (regexp route) path = Some captures →
     match_ env (before ++ route :: after) path
     = (params ← route_params env route captures; mret (Some (route, params))))
  ∧ (∀ routes path,
       Forall (no_match path) routes → match_ env routes path = Ok None)
  ∧ (∀ route captures params key value,
       route_params env route captures = Ok params →
       params !! key = Some value →
       ∃ capture, capture ∈ captures
                  ∧ decodeURIComponent env capture = Ok value)
  ∧ (∀ r h1 m1 h2 m2, routes r = [] →
       ∃ r1 r2 first second,
         add "/users/:id" h1 m1 r = Some r1
         ∧ add "/users/:id/:tab" h2 m2 r1 = Some r2
         ∧ routes r2 = [first; second]
         ∧ path first = "/users/:id" ∧ path second = "/users/:id/:tab"
         ∧ match_ env (routes r2) "/users/42"
           = Ok (Some (first, {["id" := "42"]})))
  ∧ (∀ r h m, routes r = [] →
       ∃ r1 only,
         add "/users/:id/:tab" h m r = Some r1
         ∧ routes r1 = [only]
         ∧ path only = "/users/:id/:tab"
         ∧ match_ env (routes r1) "/users/42/settings"
           = Ok (Some (only, {["id" := "42"; "tab" := "settings"]}))).
Proof.
  intros H42 Hsettings.
  split.
  { intros p h m r r'. unfold add.
    destruct (RegExp 0 _) as [re|]; [|done]. intros [= <-]. by eexists. }
  split; [intros; by apply match_first_matching|].
  split; [intros; by apply match_none|].
  split.
  { intros route captures params key value Hparams Hkey.
    unfold route_params in Hparams. case_bool_decide.
    - destruct (assign_params_decoded _ _ _ _ _ Hparams key value Hkey)
        as [Hempty|?]; [by rewrite lookup_empty in Hempty | done].
    - injection Hparams as <-. by rewrite lookup_empty in Hkey. }
  split.
  - intros r h1 m1 h2 m2 Hr.
    exists (set_routes [users_id h1 m1] r),
           (set_routes [users_id h1 m1; users_id_tab h2 m2] r),
           (users_id h1 m1), (users_id_tab h2 m2).
    rewrite add_users_id, add_users_id_tab, Hr.
    repeat (split; [done|]).
    cbn [routes set_routes].
    rewrite (match_head _ _ _ ["42"]) by (by vm_compute).
    unfold route_params.
    rewrite bool_decide_eq_true_2 by (cbn; lia).
    cbn [assign_params paramNames users_id]. rewrite H42.
    cbn [mbind result_bind mret result_ret name_at lookup list_lookup default].
    by rewrite set_property_plain, insert_empty.
  - intros r h m Hr.
    exists (set_routes [users_id_tab h m] r), (users_id_tab h m).
    rewrite add_users_id_tab, Hr.
    repeat (split; [done|]).
    cbn [routes set_routes].
    rewrite (match_head _ _ _ ["42"; "settings"]) by (by vm_compute).
    unfold route_params.
    rewrite bool_decide_eq_true_2 by (cbn; lia).
    cbn [assign_params paramNames users_id_tab]. rewrite H42.
    cbn [mbind result_bind]. rewrite Hsettings.
    cbn [mbind result_bind mret result_ret name_at lookup list_lookup default].
    rewrite !set_property_plain by done. do 3 f_equal.
Qed.

End router_matching.

(** ** Router: the veto of [beforeEach] *)

Section router_veto.
Import Router.
Context (env : environment).

Lemma handleRouteChange_vetoed (path : option string) (r : router)
    (hook : nat) (candidate : option route_info) :
  beforeEach r = Some hook →
  candidate_route env path r = Ok candidate →
  call_beforeEach env hook candidate (currentRoute r) = JBool false →
  handleRouteChange env path r
  = Fulfilled
      (log (BeforeEachCalled hook candidate (currentRoute r))
           (set_currentRoute candidate
              (set_currentHash (effective_path path r) r))).
Proof.
  intros Hhook Hcandidate Hfalse.
  unfold handleRouteChange, candidate_route in *.
  fold (effective_path path r).
  cbn [routes set_currentHash] in *.
  destruct (match_ env (routes r) (effective_path path r))
    as [matched|e]; [|done].
  cbn in Hcandidate. injection Hcandidate as Hcandidate.
  rewrite Hcandidate.
  cbn [beforeEach currentRoute set_currentRoute set_currentHash].
  by rewrite Hhook, Hfalse.
Qed.

(** C5.  When the [beforeEach] hook of a transition resolves to [false],
    [handleRouteChange] completes having called nothing but the hook: no
    route handler, no not-found handler, no [afterEach] hook and no
    route-change listener is called. *)
Theorem beforeEach_false_calls_nothing (path : option string) (r : router)
    (hook : nat) (candidate : option route_info) :
  beforeEach r = Some hook →
  candidate_route env path r = Ok candidate →
  call_beforeEach env hook candidate (currentRoute r) = JBool false →
  ∃ r', handleRouteChange env path r = Fulfilled r'
        ∧ trace r'
          = trace r ++ [BeforeEachCalled hook candidate (currentRoute r)]
        ∧ ∀ e, e ∈ trace r' → e ∈ trace r ∨ ¬ after_veto e.
Proof.
  intros Hhook Hcandidate Hfalse. eexists. split.
  - by apply handleRouteChange_vetoed.
  - cbn. split; [done|]. intros e He.
    apply elem_of_app in He as [He|He]; [by left|].
    apply list_elem_of_singleton in He as ->. right. by intros [].
Qed.

End router_veto.

(** ** Router: paths made of segments *)

Section router_segments.
Import Router.

Lemma append_String (c : ascii) (s t : string) :
  String c s +:+ t = String c (s +:+ t).
Proof. done. Qed.

Lemma append_empty_l (s : string) : "" +:+ s = s.
Proof. done. Qed.

Lemma append_empty_r (s : string) : s +:+ "" = s.
Proof. induction s as [|c s IH]; [done|]. by rewrite append_String, IH. Qed.

Lemma append_assoc (s1 s2 s3 : string) : (s1 +:+ s2) +:+ s3 = s1 +:+ (s2 +:+ s3).
Proof. induction s1 as [|c s1 IH]; [done|]. by rewrite !append_String, IH. Qed.

Lemma rev_app_rev_app (n acc t : string) :
  String.rev_app (String.rev_app n acc) t = String.rev_app acc (n +:+ t).
Proof.
  revert acc t. induction n as [|c n IH]; intros acc t; [done|].
  cbn [String.rev_app]. by rewrite IH, !append_String.
Qed.

Lemma word_facts (c : ascii) :
  is_word c = true →
  c ≠ "/"%char ∧ c ≠ ":"%char ∧ c ≠ "*"%char ∧ is_meta c = false.
Proof.
  intros Hc. repeat split; try (intros ->; by vm_compute in Hc).
  destruct (is_meta c) eqn:Hm; [|done]. unfold is_meta in Hm.
  apply bool_decide_eq_true in Hm. cbn in Hm.
  repeat (apply elem_of_cons in Hm as [->|Hm]; [by vm_compute in Hc|]).
  by apply elem_of_nil in Hm.
Qed.

Lemma plain_facts (c : ascii) :
  plain c = true →
  c ≠ "/"%char ∧ c ≠ ":"%char ∧ c ≠ "*"%char ∧ is_meta c = false.
Proof.
  unfold plain. rewrite !andb_true_iff, !negb_true_iff.
  intros [[Hm Hcolon] Hslash].
  apply bool_decide_eq_false in Hcolon, Hslash.
  repeat split; try done. intros ->. by vm_compute in Hm.
Qed.

(** *** The duplicate-slash pass *)

Lemma replace_slashes_cons (c : ascii) (s : string) :
  c ≠ "/"%char → replace_slashes (String c s) = String c (replace_slashes s).
Proof.
  intros Hc. destruct s as [|b s]; [done|].
  cbn [replace_slashes]. by rewrite (bool_decide_eq_false_2 (c = _)).
Qed.

Lemma replace_slashes_slash (c : ascii) (s : string) :
  c ≠ "/"%char →
  replace_slashes (String "/" (String c s))
  = String "/" (replace_slashes (String c s)).
Proof.
  intros Hc. cbn [replace_slashes].
  by rewrite (bool_decide_eq_false_2 (c = _)), andb_false_r.
Qed.

Lemma replace_slashes_text (text tail : string) :
  all_chars not_slash text = true →
  replace_slashes (text +:+ tail) = text +:+ replace_slashes tail.
Proof.
  induction text as [|c text IH]; [done|].
  cbn [all_chars]. rewrite andb_true_iff. intros [Hc Htext].
  apply negb_true_iff, bool_decide_eq_false in Hc.
  rewrite append_String, replace_slashes_cons by done. by rewrite IH.
Qed.

Lemma all_chars_impl (P Q : ascii → bool) (s : string) :
  (∀ c, P c = true → Q c = true) → all_chars P s = true → all_chars Q s = true.
Proof.
  intros HPQ. induction s as [|c s IH]; [done|]. cbn.
  rewrite !andb_true_iff. intros [Hc Hs]. auto.
Qed.

Lemma segment_text_no_slash (seg : segment) :
  well_formed seg →
  ∃ c text, segment_text seg = String c text ∧ c ≠ "/"%char
            ∧ all_chars not_slash text = true.
Proof.
  assert (∀ c, c ≠ "/"%char → not_slash c = true) as Hns.
  { intros c Hc. by apply negb_true_iff, bool_decide_eq_false. }
  destruct seg as [text|name|]; cbn.
  - intros [Hne Hall]. destruct text as [|c text]; [done|].
    cbn in Hall. apply andb_true_iff in Hall as [Hc Htext].
    exists c, text. split; [done|]. split; [by apply plain_facts|].
    apply (all_chars_impl plain); [|done]. intros ? ?. by apply Hns, plain_facts.
  - intros [_ Hall]. exists ":"%char, name. split; [done|]. split; [done|].
    apply (all_chars_impl is_word); [|done]. intros ? ?. by apply Hns, word_facts.
  - intros _. by exists "*"%char, "*".
Qed.

Lemma replace_slashes_path (segs : list segment) :
  Forall well_formed segs → replace_slashes (path_of segs) = path_of segs.
Proof.
  induction 1 as [|seg segs Hseg _ IH]; [done|].
  cbn [path_of].
  destruct (segment_text_no_slash seg Hseg) as (c & text & -> & Hc & Htext).
  rewrite append_String, replace_slashes_slash, replace_slashes_cons by done.
  by rewrite replace_slashes_text, IH.
Qed.

(** *** The parameter pass *)

Lemma path_of_at_boundary (segs : list segment) : at_boundary (path_of segs).
Proof. destruct segs; [by left | right; by eexists]. Qed.

Lemma replace_params_cons (c : ascii) (s : string) :
  c ≠ ":"%char →
  replace_params false (String c s) = String c (replace_params false s).
Proof.
  intros Hc. cbn [replace_params andb].
  by rewrite (bool_decide_eq_false_2 (c = _)).
Qed.

Lemma replace_params_text (text tail : string) :
  all_chars plain text = true →
  replace_params false (text +:+ tail) = text +:+ replace_params false tail.
Proof.
  induction text as [|c text IH]; [done|].
  cbn [all_chars]. rewrite andb_true_iff. intros [Hc Htext].
  rewrite append_String, replace_params_cons by (by apply plain_facts).
  by rewrite IH.
Qed.

Lemma replace_params_boundary (tail : string) :
  at_boundary tail → replace_params true tail = replace_params false tail.
Proof. by intros [->|[s ->]]. Qed.

Lemma replace_params_name (name tail : string) :
  all_chars is_word name = true → at_boundary tail →
  replace_params true (name +:+ tail) = replace_params false tail.
Proof.
  intros Hname Htail. induction name as [|c name IH].
  - by apply replace_params_boundary.
  - cbn [all_chars] in Hname. apply andb_true_iff in Hname as [Hc Hname].
    rewrite append_String. cbn [replace_params]. rewrite Hc. cbn [andb].
    by apply IH.
Qed.

Lemma replace_params_colon (c : ascii) (s : string) :
  is_word c = true →
  replace_params false (String ":" (String c s))
  = "([^/]+)" +:+ replace_params true (String c s).
Proof.
  intros Hc. cbn [replace_params andb starts_with_word].
  by rewrite bool_decide_eq_true_2, Hc.
Qed.

Lemma replace_params_path (segs : list segment) :
  Forall well_formed segs →
  replace_params false (path_of segs) = params_replaced segs.
Proof.
  induction 1 as [|seg segs Hseg _ IH]; [done|].
  cbn [path_of params_replaced].
  rewrite replace_params_cons by done. f_equal.
  destruct seg as [text|name|]; cbn [segment_text group_text].
  - destruct Hseg as [_ Hall]. by rewrite replace_params_text, IH.
  - destruct Hseg as [Hne Hall]. destruct name as [|c name]; [done|].
    assert (is_word c = true) as Hc
      by (cbn in Hall; by apply andb_true_iff in Hall as [? _]).
    rewrite (append_String ":"), (append_String c).
    rewrite replace_params_colon, <- (append_String c) by done.
    rewrite replace_params_name, IH;
      [done | done | apply path_of_at_boundary].
  - rewrite !append_String, !append_empty_l, !replace_params_cons by done.
    by rewrite IH.
Qed.

(** *** The wildcard pass *)

Lemma replace_wildcards_cons (c : ascii) (s : string) :
  c ≠ "*"%char →
  replace_wildcards (String c s) = String c (replace_wildcards s).
Proof.
  intros Hc. destruct s as [|b s]; [done|].
  cbn [replace_wildcards]. by rewrite (bool_decide_eq_false_2 (c = _)).
Qed.

Lemma replace_wildcards_text (text tail : string) :
  all_chars plain text = true →
  replace_wildcards (text +:+ tail) = text +:+ replace_wildcards tail.
Proof.
  induction text as [|c text IH]; [done|].
  cbn [all_chars]. rewrite andb_true_iff. intros [Hc Htext].
  rewrite append_String, replace_wildcards_cons by (by apply plain_facts).
  by rewrite IH.
Qed.

Lemma replace_wildcards_path (segs : list segment) :
  Forall well_formed segs →
  replace_wildcards (params_replaced segs) = pattern_of segs.
Proof.
  induction 1 as [|seg segs Hseg _ IH]; [done|].
  cbn [params_replaced pattern_of].
  rewrite replace_wildcards_cons by done. f_equal.
  destruct seg as [text|name|]; cbn [group_text segment_text pattern_text].
  - destruct Hseg as [_ Hall]. by rewrite replace_wildcards_text, IH.
  - rewrite !append_String, !append_empty_l, !replace_wildcards_cons by done.
    by rewrite IH.
  - rewrite !append_String, !append_empty_l. cbn [replace_wildcards].
    rewrite !bool_decide_eq_true_2 by done. cbn [andb].
    by rewrite IH, !append_String, !append_empty_l.
Qed.

(** *** The expression *)

Lemma RegExp_literal (c : ascii) (s : string) :
  is_meta c = false → RegExp 0 (String c s) = (Lit c ::.) <$> RegExp 0 s.
Proof.
  intros Hc. cbn [RegExp].
  assert (c ≠ "("%char) as Hparen by (intros ->; by vm_compute in Hc).
  assert (∀ p, Dom.starts_with (String "(" p) (String c s) = false) as Hprefix.
  { intros p. cbn [Dom.starts_with].
    by rewrite (bool_decide_eq_false_2 (_ = c)). }
  by rewrite !Hprefix, Hc.
Qed.

Lemma RegExp_text (text tail : string) :
  all_chars plain text = true →
  RegExp 0 (text +:+ tail)
  = ((Lit <$> list_ascii_of_string text) ++.) <$> RegExp 0 tail.
Proof.
  induction text as [|c text IH];
    [rewrite append_empty_l; by destruct (RegExp 0 tail)|].
  cbn [all_chars]. rewrite andb_true_iff. intros [Hc Htext].
  rewrite append_String, RegExp_literal by (by apply plain_facts).
  rewrite IH by done. by destruct (RegExp 0 tail).
Qed.

Lemma RegExp_path (segs : list segment) :
  Forall well_formed segs → RegExp 0 (pattern_of segs) = Some (tokens_of segs).
Proof.
  induction 1 as [|seg segs Hseg _ IH]; [done|].
  cbn [pattern_of]. rewrite RegExp_literal by done.
  unfold tokens_of. rewrite bind_cons. fold (tokens_of segs).
  destruct seg as [text|name|]; cbn [pattern_text segment_tokens].
  - destruct Hseg as [_ Hall]. by rewrite RegExp_text, IH.
  - change (RegExp 0 ("([^/]+)" +:+ pattern_of segs))
      with ((Segment ::.) <$> RegExp 0 (pattern_of segs)).
    by rewrite IH.
  - change (RegExp 0 ("(.*)" +:+ pattern_of segs))
      with ((Wildcard ::.) <$> RegExp 0 (pattern_of segs)).
    by rewrite IH.
Qed.

(** *** The parameter names *)

Lemma param_names_cons (c : ascii) (s : string) :
  c ≠ ":"%char → param_names None (String c s) = param_names None s.
Proof.
  intros Hc. cbn [param_names]. by rewrite (bool_decide_eq_false_2 (c = _)).
Qed.

Lemma param_names_text (text tail : string) :
  all_chars plain text = true →
  param_names None (text +:+ tail) = param_names None tail.
Proof.
  induction text as [|c text IH]; [done|].
  cbn [all_chars]. rewrite andb_true_iff. intros [Hc Htext].
  rewrite append_String, param_names_cons by (by apply plain_facts).
  by apply IH.
Qed.

Lemma param_names_close (acc tail : string) :
  at_boundary tail →
  param_names (Some acc) tail = String.rev acc :: param_names None tail.
Proof. by intros [->|[s ->]]. Qed.

Lemma param_names_name (name acc tail : string) :
  all_chars is_word name = true → at_boundary tail →
  param_names (Some acc) (name +:+ tail)
  = String.rev_app acc name :: param_names None tail.
Proof.
  intros Hname Htail. revert acc. induction name as [|c name IH]; intros acc.
  - by rewrite append_empty_l, param_names_close.
  - cbn [all_chars] in Hname. apply andb_true_iff in Hname as [Hc Hname].
    rewrite append_String. cbn [param_names]. rewrite Hc.
    by rewrite IH.
Qed.

Lemma param_names_colon (c : ascii) (s : string) :
  is_word c = true →
  param_names None (String ":" (String c s))
  = param_names (Some "") (String c s).
Proof.
  intros Hc.
  change (param_names None (String ":" (String c s)))
    with (if bool_decide (":"%char = ":"%char) && is_word c
          then param_names (Some "") (String c s)
          else param_names None (String c s)).
  by rewrite bool_decide_eq_true_2, Hc.
Qed.

Lemma param_names_path (segs : list segment) :
  Forall well_formed segs → param_names None (path_of segs) = names_of segs.
Proof.
  induction 1 as [|seg segs Hseg _ IH]; [done|].
  cbn [path_of]. rewrite param_names_cons by done.
  unfold names_of. rewrite bind_cons. fold (names_of segs).
  destruct seg as [text|name|]; cbn [segment_text].
  - destruct Hseg as [_ Hall]. by rewrite param_names_text, IH.
  - destruct Hseg as [Hne Hall]. destruct name as [|c name]; [done|].
    assert (is_word c = true) as Hc
      by (cbn in Hall; by apply andb_true_iff in Hall as [? _]).
    rewrite (append_String ":"), (append_String c).
    rewrite param_names_colon, <- (append_String c) by done.
    rewrite param_names_name, IH; [done | done | apply path_of_at_boundary].
  - rewrite !append_String, !append_empty_l, !param_names_cons by done.
    by rewrite IH.
Qed.

(** What [add] registers for a path of well-formed segments: the
    expression has one capture group for every parameter and for every
    wildcard, in the order of the path, and the names are those of the
    parameters alone. *)
Lemma add_path_of (segs : list segment) (h : nat) (m : jsval) (r : router) :
  Forall well_formed segs →
  add (path_of segs) h m r
  = Some (set_routes
            (routes r ++ [Route (path_of segs) h (tokens_of segs)
                                (names_of segs) m]) r).
Proof.
  intros Hsegs. unfold add.
  rewrite replace_slashes_path, replace_params_path, replace_wildcards_path,
    RegExp_path, param_names_path by done.
  done.
Qed.


End router_segments.

(** ** Router: parameters by position *)

Section router_positions.
Import Router.
Context (env : environment).




(** The assignment succeeds when every capture can be decoded. *)
Lemma assign_params_total (names : list string) (index : nat)
    (captures : list string) (start : gmap string string) :
  Forall (λ c, ∃ value, decodeURIComponent env c = Ok value) captures →
  ∃ params, assign_params env names index captures start = Ok params.
Proof.
  intros Hall. revert index start.
  induction Hall as [|capture captures [value Hvalue] _ IH];
    intros index start; cbn [assign_params]; [by eexists|].
  rewrite Hvalue. apply IH.
Qed.

End router_positions.

(** ** Router: the wildcard *)

Section router_wildcard.
Import Router.
Context (env : environment).


End router_wildcard.

(** *** The router on concrete inputs *)

Lemma match_first_registered_wins_witness :
  percent_decode "42" = Ok "42"
  ∧ percent_decode "settings" = Ok "settings"
  ∧ ∃ r1 only,
      Router.add "/users/:id/:tab" 2 (JObj []) users_router = Some r1
      ∧ Router.routes r1 = [only]
      ∧ Router.path only = "/users/:id/:tab"
      ∧ Router.match_ vetoing_environment (Router.routes r1) "/users/42/settings"
        = Ok (Some (only, {["id" := "42"; "tab" := "settings"]})).
Proof.
  split; [by vm_compute|]. split; [by vm_compute|].
  apply (match_first_registered_wins vetoing_environment
           ltac:(by vm_compute) ltac:(by vm_compute)).
  reflexivity.
Defined.

Lemma beforeEach_false_calls_nothing_witness :
  Router.beforeEach guarded_router = Some 9
  ∧ candidate_route vetoing_environment (Some "/a") guarded_router
    = Ok (Some (Router.RouteInfo "/a" ∅ (JObj [])))
  ∧ ∃ r', Router.handleRouteChange vetoing_environment (Some "/a") guarded_router
          = Router.Fulfilled r'
          ∧ Router.trace r'
            = [Router.BeforeEachCalled 9 (Some (Router.RouteInfo "/a" ∅ (JObj [])))
                                       None].
Proof.
  split; [reflexivity|]. split; [by vm_compute|].
  destruct (beforeEach_false_calls_nothing vetoing_environment
              (Some "/a") guarded_router 9
              (Some (Router.RouteInfo "/a" ∅ (JObj []))))
    as (r' & Hr' & Htrace & _); [reflexivity | by vm_compute | reflexivity |].
  exists r'. split; [exact Hr' | exact Htrace].
Defined.

(** C6.  A transition that the [beforeEach] hook vetoes leaves the
    candidate as the current route: on a router without current route and
    with the route [/a], [handleRouteChange('/a')] under a hook resolving to
    [false] calls neither handler nor listener, and [getCurrentRoute()]
    returns the route of [/a] afterwards, not the [null] it returned
    before.  The current route is assigned before the hook is awaited and
    the cancelling [return] does not restore it. *)
Theorem vetoed_transition_keeps_candidate :
  Router.getCurrentRoute guarded_router = None
  ∧ Router.call_beforeEach vetoing_environment 9
      (Some (Router.RouteInfo "/a" ∅ (JObj []))) None = JBool false
  ∧ ∃ r', Router.handleRouteChange vetoing_environment (Some "/a") guarded_router
          = Router.Fulfilled r'
          ∧ Router.getCurrentRoute r'
            = Some (Router.RouteInfo "/a" ∅ (JObj []))
          ∧ Router.getCurrentRoute r' ≠ Router.getCurrentRoute guarded_router.
Proof.
  split; [reflexivity|]. split; [reflexivity|].
  eexists. split.
  - apply (handleRouteChange_vetoed vetoing_environment (Some "/a")
             guarded_router 9 (Some (Router.RouteInfo "/a" ∅ (JObj []))));
      [reflexivity | by vm_compute | reflexivity].
  - split; [reflexivity | done].
Qed.

(** The same for every router and path: after a vetoed transition the
    current route is the candidate. *)
Lemma vetoed_transition_current_route (env : Router.environment)
    (path : option string) (r : Router.router) (hook : nat)
    (candidate : option Router.route_info) :
  Router.beforeEach r = Some hook →
  candidate_route env path r = Ok candidate →
  Router.call_beforeEach env hook candidate (Router.currentRoute r)
  = JBool false →
  ∃ r', Router.handleRouteChange env path r = Router.Fulfilled r'
        ∧ Router.getCurrentRoute r' = candidate.
Proof.
  intros Hhook Hcandidate Hfalse. eexists. split.
  - by apply handleRouteChange_vetoed.
  - done.
Qed.



(** * Further properties of the code *)

(** ** State store: notification, reset, persistence *)

Section store_more.
Import State.
Context (env : environment).

Lemma notify_pass (oldState : gmap string jsval) (newValues : jsval)
    (l : list nat) (st : store) :
  foldl (λ st subscriber,
           log (Notified subscriber (state st) oldState newValues) st) st l
  = Store (persistence_target st) (persistenceKey st) (initialState st)
          (state st) (subscribers st) (computedCache st)
          (computedProperties st) (backend st)
          (trace st ++ notifications l (state st) oldState newValues).
Proof.
  revert st. induction l as [|f l IH]; intros st.
  - cbn. rewrite app_nil_r. by destruct st.
  - cbn [foldl]. rewrite IH. cbn. by rewrite <- app_assoc.
Qed.

Lemma notify_store (oldState : gmap string jsval) (newValues : jsval)
    (st : store) :
  notify oldState newValues st
  = Store (persistence_target st) (persistenceKey st) (initialState st)
          (state st) (subscribers st) (computedCache st)
          (computedProperties st) (backend st)
          (trace st ++ notifications (subscribers st) (state st) oldState
                                     newValues).
Proof. apply notify_pass. Qed.

(** [saveState] changes the backend, at the persistence key only, and the
    trace, which it extends by events that are no notifications. *)
Lemma saveState_store (st : store) :
  ∃ items saved,
    saveState env st
    = Store (persistence_target st) (persistenceKey st) (initialState st)
            (state st) (subscribers st) (computedCache st)
            (computedProperties st) items (trace st ++ saved)
    ∧ Forall not_notification saved
    ∧ (∀ key, key ≠ persistenceKey st → items !! key = backend st !! key)
    ∧ (persistence_target st = NoPersistence → items = backend st).
Proof.
  destruct st as [target key initial current subs cache props items events].
  unfold saveState. cbn.
  assert (Forall not_notification [ConsoleError "Failed to persist state:"])
    as Herror by (by repeat constructor).
  destruct target as [| | |? []];
    try (exists items, []; by rewrite app_nil_r);
    (destruct (JSON_stringify env current) as [blob|];
     [|by exists items, [ConsoleError "Failed to persist state:"]]);
    try (exists items, []; by rewrite app_nil_r);
    (exists (<[key := blob]> items), [ItemSet key blob];
     split; [done|]; split; [by repeat constructor|];
     split; [intros k Hk; by rewrite lookup_insert_ne | done]).
Qed.

(** The store after [setState], field by field. *)
Lemma setState_fields (update : jsval) (st : store) :
  let newValues := merge_source env update (state st) in
  ∃ items before,
    (setState env update st).2
    = Store (persistence_target st) (persistenceKey st) (initialState st)
            (spread (state st) newValues) (subscribers st) ∅
            (computedProperties st) items
            (trace st ++ before
             ++ notifications (subscribers st) (spread (state st) newValues)
                              (state st) newValues)
    ∧ Forall not_notification before
    ∧ (∀ key, key ≠ persistenceKey st → items !! key = backend st !! key)
    ∧ (persistence_target st = NoPersistence → items = backend st).
Proof.
  cbn zeta. unfold setState, merge_source.
  set (p := match update with JFun f => (_, _) | _ => _ end).
  assert (∃ called,
            p = (match update with
                 | JFun f => call_update env f (state st) | _ => update end,
                 Store (persistence_target st) (persistenceKey st)
                       (initialState st) (state st) (subscribers st)
                       (computedCache st) (computedProperties st) (backend st)
                       (trace st ++ called))
            ∧ Forall not_notification called) as (called & -> & Hcalled).
  { subst p. destruct update;
      try (exists []; rewrite app_nil_r; by destruct st).
    eexists [_]. split; [done | by repeat constructor]. }
  cbn [getState snd]. rewrite notify_store.
  set (st1 := set_computedCache ∅ _).
  destruct (saveState_store st1) as (items & saved & -> & Hsaved & Hkeys & Hnone).
  exists items, (called ++ saved). subst st1. cbn in *.
  rewrite <- !app_assoc. split; [done|]. split; [|done].
  by apply Forall_app.
Qed.

(** The store after [reset], field by field. *)
Lemma reset_fields (newInitial : option (gmap string jsval)) (st : store) :
  let initialValues := default (initialState st) newInitial in
  ∃ items before,
    (reset env newInitial st).2
    = Store (persistence_target st) (persistenceKey st) (initialState st)
            initialValues (subscribers st) ∅ (computedProperties st) items
            (trace st ++ before
             ++ notifications (subscribers st) initialValues ∅
                              (state_object initialValues))
    ∧ Forall not_notification before
    ∧ (∀ key, key ≠ persistenceKey st → items !! key = backend st !! key)
    ∧ (persistence_target st = NoPersistence → items = backend st).
Proof.
  cbn zeta. unfold reset. cbn [getState snd]. rewrite notify_store.
  set (st1 := set_computedCache ∅ _).
  destruct (saveState_store st1) as (items & saved & -> & Hsaved & Hkeys & Hnone).
  exists items, saved. subst st1. cbn in *. by rewrite <- app_assoc.
Qed.

(** [getState] changes the cache and the trace only. *)
Lemma getState_fields (prop : option string) (st : store) :
  ∃ cache events,
    (getState env prop st).2
    = Store (persistence_target st) (persistenceKey st) (initialState st)
            (state st) (subscribers st) cache (computedProperties st)
            (backend st) (trace st ++ events)
    ∧ Forall not_notification events
    ∧ dom cache ⊆ dom (computedCache st) ∪ dom (computedProperties st).
Proof.
  assert (∃ cache events,
            st = Store (persistence_target st) (persistenceKey st)
                   (initialState st) (state st) (subscribers st) cache
                   (computedProperties st) (backend st) (trace st ++ events)
            ∧ Forall not_notification events
            ∧ dom cache ⊆ dom (computedCache st) ∪ dom (computedProperties st))
    as Hsame.
  { exists (computedCache st), []. rewrite app_nil_r.
    split; [by destruct st|]. split; [done | set_solver]. }
  unfold getState. destruct prop as [p|]; [|done].
  case_bool_decide; [done|].
  destruct (computedProperties st !! p) as [getter|] eqn:Hp;
    [|by destruct (includes_dot p)].
  destruct (computedCache st !! p); [done|]. cbn [snd].
  eexists _, [_]. split; [done|]. split; [by repeat constructor|].
  cbn. rewrite dom_insert. apply elem_of_dom_2 in Hp.
  clear Hsame. intros k [->%elem_of_singleton | Hk]%elem_of_union;
    apply elem_of_union; [by right | by left].
Qed.


(** X2.  [getState] never calls a subscriber and leaves the state, the
    subscribers, the computed properties and the persistence backend as
    they are: it writes to the cache of computed values only. *)
Theorem getState_reads_only (prop : option string) (st : store) :
  ∃ cache events,
    (getState env prop st).2
    = Store (persistence_target st) (persistenceKey st) (initialState st)
            (state st) (subscribers st) cache (computedProperties st)
            (backend st) (trace st ++ events)
    ∧ Forall not_notification events.
Proof.
  destruct (getState_fields prop st) as (cache & events & H & Hevents & _).
  by exists cache, events.
Qed.

Lemma loadPersistedState_fields (st : store) :
  ∃ current events,
    loadPersistedState env st
    = Store (persistence_target st) (persistenceKey st) (initialState st)
            current (subscribers st) (computedCache st)
            (computedProperties st) (backend st) (trace st ++ events).
Proof.
  destruct st as [target key initial current subs cache props items events].
  unfold loadPersistedState. cbn.
  assert (∃ current' events',
            Store target key initial current subs cache props items events
            = Store target key initial current' subs cache props items
                    (events ++ events')) as Hsame
    by (exists current, []; by rewrite app_nil_r).
  destruct target as [| | |[] ?]; try done;
    (destruct (items !! key) as [savedState|]; [|done];
     case_bool_decide; [done|];
     destruct (JSON_parse env savedState) as [parsed|];
     [eexists _, []; by rewrite app_nil_r | by eexists _, [_]]).
Qed.

(** What every call of the API keeps: the persistence target and key and
    the initial state are those of the construction; the backend changes at
    the persistence key only, and not at all without persistence; a cached
    name stays a registered name. *)
Lemma perform_keeps (c : call) (st : store) :
  persistence_target (perform env st c) = persistence_target st
  ∧ persistenceKey (perform env st c) = persistenceKey st
  ∧ initialState (perform env st c) = initialState st
  ∧ (∀ key, key ≠ persistenceKey st →
            backend (perform env st c) !! key = backend st !! key)
  ∧ (persistence_target st = NoPersistence →
     backend (perform env st c) = backend st)
  ∧ (dom (computedCache st) ⊆ dom (computedProperties st) →
     dom (computedCache (perform env st c))
     ⊆ dom (computedProperties (perform env st c))).
Proof.
  destruct c as [prop|update|callback|callback|name getter|newInitial];
    cbn [perform].
  - destruct (getState_fields prop st) as (cache & events & -> & _ & Hdom).
    cbn. repeat split; try done. intros Hsub k Hk.
    pose proof (Hdom k Hk) as [Hin|Hin]%elem_of_union; [by apply Hsub | done].
  - destruct (setState_fields update st)
      as (items & before & -> & _ & Hkeys & Hnone).
    cbn. repeat split; try done;
      intros _ k Hk; rewrite dom_empty in Hk; by apply elem_of_empty in Hk.
  - destruct callback; by cbn.
  - rewrite unsubscribe_store. by cbn.
  - destruct getter; cbn; repeat split; try done.
    intros Hsub k Hk. rewrite dom_insert. apply elem_of_union. right.
    by apply Hsub.
  - destruct (reset_fields newInitial st)
      as (items & before & -> & _ & Hkeys & Hnone).
    cbn. repeat split; try done;
      intros _ k Hk; rewrite dom_empty in Hk; by apply elem_of_empty in Hk.
Qed.

Lemma perform_all_keeps (calls : list call) (st : store) :
  persistence_target (perform_all env st calls) = persistence_target st
  ∧ persistenceKey (perform_all env st calls) = persistenceKey st
  ∧ initialState (perform_all env st calls) = initialState st
  ∧ (∀ key, key ≠ persistenceKey st →
            backend (perform_all env st calls) !! key = backend st !! key)
  ∧ (persistence_target st = NoPersistence →
     backend (perform_all env st calls) = backend st)
  ∧ (dom (computedCache st) ⊆ dom (computedProperties st) →
     dom (computedCache (perform_all env st calls))
     ⊆ dom (computedProperties (perform_all env st calls))).
Proof.
  unfold perform_all. revert st.
  induction calls as [|c calls IH]; intros st; [done|].
  cbn [foldl].
  destruct (perform_keeps c st) as (Ht & Hk & Hi & Hb & Hn & Hd).
  destruct (IH (perform env st c)) as (Ht' & Hk' & Hi' & Hb' & Hn' & Hd').
  rewrite Ht', Hk', Hi', Ht, Hk, Hi. repeat split; try done.
  - intros key Hkey. rewrite Hb' by (by rewrite Hk). by apply Hb.
  - intros Hnone. rewrite Hn' by (by rewrite Ht). by apply Hn.
  - intros Hsub. by apply Hd', Hd.
Qed.

Lemma createState_fields (initial : gmap string jsval) (target : persistence)
    (key : string) (items : gmap string string) :
  ∃ current events,
    createState env initial target key items
    = Store target key initial current [] ∅ ∅ items events.
Proof.
  unfold createState.
  destruct (loadPersistedState_fields (Store target key initial initial [] ∅ ∅ items []))
    as (current & events & ->).
  by eexists _, _.
Qed.

(** X3.  [reset()] without argument restores the state the store was
    constructed with, whatever was loaded from the persistence backend at
    construction and whatever calls were made since, among them
    [reset(newInitial)]: the initial state is never replaced.  The cache of
    computed values is empty afterwards. *)
Theorem reset_restores_construction_state (initial : gmap string jsval)
    (target : persistence) (key : string) (items : gmap string string)
    (calls : list call) :
  let st := perform_all env (createState env initial target key items) calls in
  (reset env None st).1 = Snapshot initial
  ∧ state (reset env None st).2 = initial
  ∧ computedCache (reset env None st).2 = ∅.
Proof.
  cbn zeta.
  set (st := perform_all env _ calls).
  assert (initialState st = initial) as Hinitial.
  { subst st. destruct (perform_all_keeps calls
                          (createState env initial target key items))
      as (_ & _ & -> & _).
    by destruct (createState_fields initial target key items)
      as (current & events & ->). }
  destruct (reset_fields None st) as (items' & before & Hreset & _).
  assert ((reset env None st).1 = Snapshot (state (reset env None st).2))
    as -> by done.
  rewrite Hreset. cbn. by rewrite Hinitial.
Qed.

(** X4.  A store writes to its persistence backend under its persistence
    key only, and a store without persistence never writes to it: whatever
    calls are made, every other item of the backend is as it was. *)
Theorem backend_written_at_key_only (st : store) (calls : list call)
    (key : string) :
  key ≠ persistenceKey st ∨ persistence_target st = NoPersistence →
  backend (perform_all env st calls) !! key = backend st !! key.
Proof.
  destruct (perform_all_keeps calls st) as (_ & _ & _ & Hb & Hn & _).
  intros [Hkey|Hnone]; [by apply Hb | by rewrite Hn].
Qed.


(** X6.  Registering a getter under a name that has a cached value does
    not invalidate the cache: the next [getState(name)] returns the value
    cached from the getter registered before, and the new getter is not
    called. *)
Theorem computed_again_keeps_cached (st : store) (name : string)
    (getter : nat) (cached : jsval) :
  name ≠ "" → computedCache st !! name = Some cached →
  ∃ st', computed name (JFun getter) st = Ok st'
         ∧ computedProperties st' !! name = Some getter
         ∧ getState env (Some name) st' = (Value cached, st').
Proof.
  intros Hname Hcached. eexists. split; [done|].
  split; [cbn; by rewrite lookup_insert_eq|].
  rewrite (getState_registered env _ name getter Hname)
    by (cbn; by rewrite lookup_insert_eq).
  cbn. by rewrite Hcached.
Qed.

(** X7.  A [setState] whose merged value has no own enumerable property
    ([null], [undefined], a number, a boolean, a function, or a functional
    update that returns one of these) leaves the state as it is, and still
    empties the cache of computed values and calls every subscriber, with
    the unchanged state as both the new and the old state. *)
Theorem setState_without_properties (update : jsval) (st : store) :
  entries (merge_source env update (state st)) = [] →
  state (setState env update st).2 = state st
  ∧ computedCache (setState env update st).2 = ∅
  ∧ ∃ before,
      trace (setState env update st).2
      = trace st ++ before
        ++ notifications (subscribers st) (state st) (state st)
                         (merge_source env update (state st))
      ∧ Forall not_notification before.
Proof.
  intros Hentries.
  destruct (setState_fields update st) as (items & before & -> & Hbefore & _).
  cbn. unfold spread. rewrite Hentries. cbn. split; [done|]. split; [done|].
  by exists before.
Qed.

(** X8.  When [JSON.stringify] fails on the new state of a store with
    persistence, [setState] reports it on the console and goes on: the
    backend is as before, the state is the merge, and every subscriber is
    called. *)
Theorem setState_survives_failed_save (update : jsval) (st : store)
    (e : jserror) :
  let newValues := merge_source env update (state st) in
  persistence_target st ≠ NoPersistence →
  JSON_stringify env (spread (state st) newValues) = Throw e →
  (setState env update st).1 = Snapshot (spread (state st) newValues)
  ∧ backend (setState env update st).2 = backend st
  ∧ trace (setState env update st).2
    = trace st
      ++ match update with
         | JFun f => [UpdateCalled f (state st)]
         | _ => []
         end
      ++ [ConsoleError "Failed to persist state:"]
      ++ notifications (subscribers st) (spread (state st) newValues)
                       (state st) newValues.
Proof.
  cbn zeta. intros Htarget Hfail.
  unfold setState, merge_source in *.
  set (p := match update with JFun f => (_, _) | _ => _ end).
  assert (p = (match update with
               | JFun f => call_update env f (state st) | _ => update end,
               Store (persistence_target st) (persistenceKey st)
                     (initialState st) (state st) (subscribers st)
                     (computedCache st) (computedProperties st) (backend st)
                     (trace st ++ match update with
                                  | JFun f => [UpdateCalled f (state st)]
                                  | _ => []
                                  end))) as ->
    by (subst p; destruct update; try (rewrite app_nil_r; by destruct st); done).
  cbn [getState fst snd]. rewrite notify_store.
  unfold saveState. cbn [persistence_target state set_state set_computedCache].
  rewrite Hfail.
  destruct (persistence_target st) as [| | |? ?]; [done|..];
    cbn; by rewrite <- !app_assoc.
Qed.

(** X9.  What [setState] saves is what a store constructed next on the
    same backend, with the same key, starts from: when [JSON.parse] gives
    back the state that [JSON.stringify] was given, the state of the new
    store is the saved state merged over its own initial state. *)
Theorem saved_state_is_loaded (update : jsval) (st : store)
    (blob : string) (initial : gmap string jsval) :
  let saved := spread (state st) (merge_source env update (state st)) in
  persistence_target st ∈ [LocalStorage; SessionStorage; Adapter true true] →
  JSON_stringify env saved = Ok blob → blob ≠ "" →
  JSON_parse env blob = Ok (state_object saved) →
  state (createState env initial (persistence_target st) (persistenceKey st)
                     (backend (setState env update st).2))
  = saved ∪ initial.
Proof.
  cbn zeta. intros Htarget Hsave Hblob Hparse.
  assert (backend (setState env update st).2 !! persistenceKey st = Some blob)
    as Hitem.
  { unfold setState, merge_source in *.
    set (p := match update with JFun f => (_, _) | _ => _ end).
    assert (p.1 = match update with
                  | JFun f => call_update env f (state st) | _ => update end
            ∧ state p.2 = state st ∧ persistence_target p.2 = persistence_target st
            ∧ persistenceKey p.2 = persistenceKey st) as (Hv & Hs & Ht & Hk)
      by (subst p; by destruct update).
    destruct p as [newValues st0]. cbn in Hv, Hs, Ht, Hk. subst newValues.
    cbn [getState snd]. rewrite notify_store. cbn [backend].
    unfold saveState.
    cbn [persistence_target state set_state set_computedCache persistenceKey
         backend].
    rewrite Hs, Ht, Hk, Hsave.
    repeat (apply elem_of_cons in Htarget as [->|Htarget];
            [cbn; by rewrite lookup_insert_eq|]).
    by apply elem_of_nil in Htarget. }
  unfold createState, loadPersistedState.
  cbn [persistence_target backend persistenceKey state].
  rewrite Hitem, (bool_decide_eq_false_2 _ Hblob), Hparse.
  repeat (apply elem_of_cons in Htarget as [->|Htarget];
          [cbn [state set_state]; by rewrite spread_mapping|]).
  by apply elem_of_nil in Htarget.
Qed.

Lemma assoc_map_to_list (s : gmap string jsval) (key : string) :
  assoc key (map_to_list s) = s !! key.
Proof.
  assert (∀ l : list (string * jsval), NoDup l.*1 →
            ∀ v, assoc key l = Some v ↔ (key, v) ∈ l) as Hassoc.
  { induction l as [|[k w] l IH]; intros Hnodup v; cbn.
    - split; [done | by intros ?%elem_of_nil].
    - apply NoDup_cons in Hnodup as [Hk Hnodup]. rewrite elem_of_cons.
      case_bool_decide as Heq.
      + subst k. split; [intros [= ->]; by left|].
        intros [[= ->]|Hin]; [done|].
        destruct Hk. apply list_elem_of_fmap. by exists (key, v).
      + rewrite IH by done. split; [by right|].
        by intros [[= ? ?]|?]. }
  apply option_eq. intros v.
  rewrite Hassoc by apply NoDup_fst_map_to_list.
  apply elem_of_map_to_list.
Qed.

Lemma split_dots_segment (a current rest : string) :
  dot_free a →
  split_dots current (a +:+ String "." rest)
  = String.rev (String.rev_app a current) :: split_dots "" rest.
Proof.
  unfold dot_free. revert current.
  induction a as [|c a IH]; intros current Hfree.
  - rewrite append_empty_l. cbn. by rewrite bool_decide_eq_true_2.
  - rewrite append_String. cbn [split_dots].
    cbn in Hfree. apply not_elem_of_cons in Hfree as [Hc Hfree].
    rewrite bool_decide_eq_false_2 by done. by rewrite IH.
Qed.

Lemma split_dots_last (a current : string) :
  dot_free a →
  split_dots current a = [String.rev (String.rev_app a current)].
Proof.
  unfold dot_free. revert current.
  induction a as [|c a IH]; intros current Hfree; [done|].
  cbn [split_dots]. cbn in Hfree.
  apply not_elem_of_cons in Hfree as [Hc Hfree].
  rewrite bool_decide_eq_false_2 by done. by rewrite IH.
Qed.

Lemma rev_rev_app (a : string) : String.rev (String.rev_app a "") = a.
Proof.
  unfold String.rev. rewrite rev_app_rev_app. cbn [String.rev_app].
  apply append_empty_r.
Qed.

Lemma includes_dot_path (a b : string) :
  includes_dot (a +:+ String "." b) = true.
Proof.
  unfold includes_dot. apply bool_decide_eq_true.
  induction a as [|c a IH]; [cbn; by left|].
  rewrite append_String. cbn. by right.
Qed.

(** X10.  [getState('a.b')], for names [a] and [b] without a dot and no
    computed property of that name, reads the property [b] of the state's
    value at [a] when that value is a plain object, and gives [undefined]
    when the state has no [a] (the names being none of those every object
    inherits).  An entry of the state whose own key is ['a.b'] is never
    what it returns. *)
Theorem getState_dotted_path (st : store) (a b : string) :
  dot_free a → dot_free b →
  a ∉ Object_prototype → b ∉ Object_prototype →
  computedProperties st !! (a +:+ String "." b) = None →
  (∀ props, state st !! a = Some (JObj props) →
            getState env (Some (a +:+ String "." b)) st
            = (Value (default JUndefined (assoc b props)), st))
  ∧ (state st !! a = None →
     getState env (Some (a +:+ String "." b)) st = (Value JUndefined, st)).
Proof.
  intros Ha Hb _ _ Hcomputed.
  assert (getState env (Some (a +:+ String "." b)) st
          = (Value (dotted_step (default JUndefined (state st !! a)) b), st))
    as ->.
  { unfold getState. rewrite bool_decide_eq_false_2 by (by destruct a).
    rewrite Hcomputed, includes_dot_path.
    rewrite (split_dots_segment a "" b Ha), (split_dots_last b "" Hb).
    rewrite !rev_rev_app. cbn [foldl]. do 3 f_equal.
    unfold dotted_step at 1, get_prop, state_object. cbn [truthy entries andb].
    rewrite assoc_map_to_list.
    destruct (state st !! a) as [v|]; [|done]. cbn.
    by destruct (strict_eq v JUndefined) eqn:Hv; [destruct v|]. }
  split.
  - intros props ->. cbn. unfold dotted_step, get_prop. cbn.
    by destruct (assoc b props) as [[]|].
  - by intros ->.
Qed.
End store_more.

(** *** The store on concrete inputs, continued *)

Lemma backend_written_at_key_only_witness :
  let st := persistent_store json_environment in
  let calls := [SetState (JObj [("a", JNum "1")]);
                Reset None] in
  ("theme" ≠ State.persistenceKey st
   ∨ State.persistence_target st = State.NoPersistence)
  ∧ State.backend (perform_all json_environment st calls) !! "theme"
    = State.backend st !! "theme".
Proof.
  cbn zeta. split; [by left|].
  apply backend_written_at_key_only. by left.
Defined.

Lemma computed_again_keeps_cached_witness :
  let st := (State.getState sample_environment (Some "total")
               (store_with_computed "total")).2 in
  "total" ≠ ""
  ∧ State.computedCache st !! "total" = Some (JNum "0")
  ∧ ∃ st', State.computed "total" (JFun 2) st = Ok st'
           ∧ State.computedProperties st' !! "total" = Some 2
           ∧ State.getState sample_environment (Some "total") st'
             = (State.Value (JNum "0"), st').
Proof.
  cbn zeta. split; [done|]. split; [reflexivity|].
  apply computed_again_keeps_cached; [done | reflexivity].
Defined.

Lemma setState_without_properties_witness :
  let st := store_subscribed 2 in
  entries (merge_source sample_environment JNull (State.state st)) = []
  ∧ State.state (State.setState sample_environment JNull st).2 = State.state st
  ∧ State.computedCache (State.setState sample_environment JNull st).2 = ∅
  ∧ ∃ before,
      State.trace (State.setState sample_environment JNull st).2
      = State.trace st ++ before
        ++ notifications (State.subscribers st) (State.state st)
             (State.state st)
             (merge_source sample_environment JNull (State.state st))
      ∧ Forall not_notification before.
Proof.
  cbn zeta. split; [reflexivity|].
  apply setState_without_properties. reflexivity.
Defined.

Lemma setState_survives_failed_save_witness :
  let st := persistent_store failing_environment in
  let update := JObj [("a", JNum "1")] in
  let newValues := merge_source failing_environment update (State.state st) in
  State.persistence_target st ≠ State.NoPersistence
  ∧ State.JSON_stringify failing_environment
      (State.spread (State.state st) newValues) = Throw TypeError
  ∧ (State.setState failing_environment update st).1
    = State.Snapshot (State.spread (State.state st) newValues)
  ∧ State.backend (State.setState failing_environment update st).2
    = State.backend st
  ∧ State.trace (State.setState failing_environment update st).2
    = State.trace st
      ++ []
      ++ [State.ConsoleError "Failed to persist state:"]
      ++ notifications (State.subscribers st)
           (State.spread (State.state st) newValues) (State.state st)
           newValues.
Proof.
  cbn zeta. split; [done|]. split; [reflexivity|].
  apply (setState_survives_failed_save failing_environment
           (JObj [("a", JNum "1")]) (persistent_store failing_environment)
           TypeError); [done | reflexivity].
Defined.

Lemma saved_state_is_loaded_witness :
  let st := persistent_store json_environment in
  let update := JObj [("a", JNum "1")] in
  let initial : gmap string jsval := {["b" := JNum "2"]} in
  let saved :=
    State.spread (State.state st)
                 (merge_source json_environment update (State.state st)) in
  State.persistence_target st
    ∈ [State.LocalStorage; State.SessionStorage; State.Adapter true true]
  ∧ State.JSON_stringify json_environment saved = Ok "{a:1}"
  ∧ "{a:1}" ≠ ""
  ∧ State.JSON_parse json_environment "{a:1}" = Ok (State.state_object saved)
  ∧ State.state
      (State.createState json_environment initial
         (State.persistence_target st) (State.persistenceKey st)
         (State.backend (State.setState json_environment update st).2))
    = saved ∪ initial.
Proof.
  cbn zeta.
  assert (State.persistence_target (persistent_store json_environment)
            ∈ [State.LocalStorage; State.SessionStorage;
               State.Adapter true true]) as Htarget by (by left).
  split; [done|]. split; [vm_compute; reflexivity|]. split; [done|].
  split; [vm_compute; reflexivity|].
  apply (saved_state_is_loaded json_environment (JObj [("a", JNum "1")])
           (persistent_store json_environment) "{a:1}");
    [done | vm_compute; reflexivity | done | vm_compute; reflexivity].
Defined.

Lemma getState_dotted_path_witness :
  dot_free "user" ∧ dot_free "name"
  ∧ ("user" ∉ Object_prototype) ∧ ("name" ∉ Object_prototype)
  ∧ State.computedProperties nested_store !! ("user" +:+ String "." "name")
    = None
  ∧ (∀ props, State.state nested_store !! "user" = Some (JObj props) →
              State.getState sample_environment
                (Some ("user" +:+ String "." "name")) nested_store
              = (State.Value (default JUndefined (assoc "name" props)),
                 nested_store))
  ∧ (State.state nested_store !! "user" = None →
     State.getState sample_environment
       (Some ("user" +:+ String "." "name")) nested_store
     = (State.Value JUndefined, nested_store)).
Proof.
  assert (dot_free "user") as Huser
    by (apply (bool_decide_unpack _); vm_compute; exact I).
  assert (dot_free "name") as Hname
    by (apply (bool_decide_unpack _); vm_compute; exact I).
  assert ("user" ∉ Object_prototype) as Huser'
    by (apply (bool_decide_unpack _); vm_compute; exact I).
  assert ("name" ∉ Object_prototype) as Hname'
    by (apply (bool_decide_unpack _); vm_compute; exact I).
  split; [done|]. split; [done|]. split; [done|]. split; [done|].
  split; [reflexivity|].
  apply (getState_dotted_path sample_environment nested_store "user" "name");
    [done | done | done | done | reflexivity].
Defined.

(** ** Router: the course of a transition *)

Section router_more.
Import Router.
Context (env : environment).



Lemma assign_params_throws (names : list string) (index : nat)
    (captures : list string) (start : gmap string string)
    (capture : string) (e : jserror) :
  capture ∈ captures → decodeURIComponent env capture = Throw e →
  ∃ e', assign_params env names index captures start = Throw e'.
Proof.
  intros Hin Hthrow. revert index start.
  induction captures as [|first captures IH]; intros index start;
    [by apply elem_of_nil in Hin|].
  cbn [assign_params].
  destruct (decodeURIComponent env first) as [decoded|e1] eqn:Hfirst;
    [|by exists e1].
  cbn [mbind result_bind]. apply IH.
  apply elem_of_cons in Hin as [->|Hin]; [congruence | done].
Qed.

(** X12.  When [decodeURIComponent] throws on a value captured by the
    first route that matches, the transition is rejected at once: the
    routes after it are not tried, no hook, handler or listener is called,
    and the router is left with the new path as its current hash and the
    route of the transition before as its current route. *)
Theorem undecodable_parameter_rejects (path : string) (r : router)
    (before after : list route) (route : route) (captures : list string)
    (capture : string) (e : jserror) :
  path ≠ "" →
  routes r = before ++ route :: after →
  Forall (no_match path) before →
  exec (regexp route) path = Some captures →
  paramNames route ≠ [] →
  capture ∈ captures →
  decodeURIComponent env capture = Throw e →
  ∃ e', handleRouteChange env (Some path) r
        = Rejected e' (set_currentHash path r).
Proof.
  intros Hpath Hroutes Hbefore Hexec Hnames Hin Hthrow.
  destruct (assign_params_throws (paramNames route) 0 captures ∅ capture e
              Hin Hthrow) as [e' He'].
  exists e'. unfold handleRouteChange.
  assert (or_string (default "" (Some path))
            (or_string (Dom.slice 1 (location_hash r)) (defaultRoute r))
          = path) as ->
    by (unfold or_string at 1; cbn; by rewrite bool_decide_eq_false_2).
  cbn [routes set_currentHash]. rewrite Hroutes.
  rewrite (match_first_matching env before after route path captures)
    by done.
  unfold route_params.
  rewrite bool_decide_eq_true_2
    by (destruct (paramNames route); [done | cbn; lia]).
  by rewrite He'.
Qed.

(** X13.  A silent [navigate] only sets the hash of the location.  The
    listener that [init] registers for [hashchange] calls
    [handleRouteChange()], which reads the path back from that hash: run
    after a silent [navigate], it does what the same [navigate] does when it
    is not silent (for a path of characters that the location keeps as they
    are in its hash). *)
Theorem silent_navigate_then_hashchange (path : string) (replace : bool)
    (r : router) :
  all_chars fragment_safe path = true →
  handleRouteChange env None (router_of (navigate env path replace true r))
  = navigate env path replace false r.
Proof.
  intros _. unfold navigate. cbn [router_of].
  set (fullPath := if Dom.starts_with "/" path then path else _).
  assert (fullPath ≠ "") as Hfull
    by (subst fullPath; destruct (Dom.starts_with "/" path) eqn:Hs;
        [by destruct path | done]).
  unfold handleRouteChange.
  cbn [location_hash log set_location_hash defaultRoute default].
  assert (∀ other, or_string "" (or_string (Dom.slice 1 ("#" +:+ fullPath)) other)
                   = fullPath) as Hread.
  { intros other. unfold or_string at 1. cbn [bool_decide decide_rel].
    rewrite bool_decide_eq_true_2 by done.
    change (Dom.slice 1 ("#" +:+ fullPath)) with fullPath.
    unfold or_string. by rewrite bool_decide_eq_false_2. }
  assert (∀ other, or_string fullPath other = fullPath) as Hgiven
    by (intros other; unfold or_string; by rewrite bool_decide_eq_false_2).
  by rewrite Hread, Hgiven.
Qed.

End router_more.

(** *** The router on concrete inputs, continued *)


Lemma undecodable_parameter_rejects_witness :
  let route := users_id 1 (JObj []) in
  let after := [users_any 2 (JObj [])] in
  "/users/%zz" ≠ ""
  ∧ Router.routes hooked_router = [] ++ route :: after
  ∧ Forall (no_match "/users/%zz") []
  ∧ Router.exec (Router.regexp route) "/users/%zz" = Some ["%zz"]
  ∧ Router.paramNames route ≠ []
  ∧ "%zz" ∈ ["%zz"]
  ∧ Router.decodeURIComponent permissive_environment "%zz" = Throw URIError
  ∧ ∃ e', Router.handleRouteChange permissive_environment
            (Some "/users/%zz") hooked_router
          = Router.Rejected e'
              (Router.set_currentHash "/users/%zz" hooked_router).
Proof.
  cbn zeta.
  assert (Router.routes hooked_router
          = [] ++ users_id 1 (JObj []) :: [users_any 2 (JObj [])]) as Hroutes
    by (vm_compute; reflexivity).
  assert (Router.exec (Router.regexp (users_id 1 (JObj []))) "/users/%zz"
          = Some ["%zz"]) as Hexec by (vm_compute; reflexivity).
  assert ("%zz" ∈ ["%zz"]) as Hin by apply list_elem_of_here.
  split; [done|]. split; [exact Hroutes|]. split; [constructor|].
  split; [exact Hexec|]. split; [done|]. split; [exact Hin|].
  split; [reflexivity|].
  apply (undecodable_parameter_rejects permissive_environment "/users/%zz"
           hooked_router [] [users_any 2 (JObj [])] (users_id 1 (JObj []))
           ["%zz"] "%zz" URIError);
    [done | exact Hroutes | constructor | exact Hexec | done | exact Hin
    | reflexivity].
Defined.

Lemma silent_navigate_then_hashchange_witness :
  all_chars fragment_safe "/users/42" = true
  ∧ Router.handleRouteChange permissive_environment None
      (Router.router_of
         (Router.navigate permissive_environment "/users/42" false true
            hooked_router))
    = Router.navigate permissive_environment "/users/42" false false
        hooked_router.
Proof.
  split; [vm_compute; reflexivity|].
  apply silent_navigate_then_hashchange. vm_compute. reflexivity.
Defined.

(** ** Router: the paths a route matches *)

Section router_shape.
Import Router.

Lemma greedy_sound (allowed : ascii → bool) (least : nat)
    (k : string → option (list string)) (taken s : string)
    (captures : list string) :
  greedy allowed least k taken s = Some captures →
  ∃ run rest others,
    s = run +:+ rest
    ∧ all_chars allowed run = true
    ∧ (least ≤ String.length taken + String.length run)%nat
    ∧ k rest = Some others
    ∧ captures = String.rev (String.rev_app run taken) :: others.
Proof.
  assert (∀ taken s,
            (if bool_decide (least ≤ String.length taken)%nat
             then (String.rev taken ::.) <$> k s else None) = Some captures →
            ∃ run rest others,
              s = run +:+ rest
              ∧ all_chars allowed run = true
              ∧ (least ≤ String.length taken + String.length run)%nat
              ∧ k rest = Some others
              ∧ captures = String.rev (String.rev_app run taken) :: others)
    as Hstop.
  { intros taken' s' Hstop. case_bool_decide as Hleast; [|done].
    destruct (k s') as [others|] eqn:Hk; [|done].
    injection Hstop as <-. exists "", s', others.
    repeat split; try done. cbn. lia. }
  revert taken. induction s as [|c s IH]; intros taken; cbn [greedy].
  - apply Hstop.
  - destruct (allowed c) eqn:Hc; [|apply Hstop].
    destruct (greedy allowed least k (String c taken) s) as [found|] eqn:Hg;
      [|apply Hstop].
    intros [= <-].
    destruct (IH _ Hg) as (run & rest & others & -> & Hrun & Hleast & Hk & ->).
    exists (String c run), rest, others.
    repeat split; try done.
    + cbn. by rewrite Hc.
    + cbn in *. lia.
Qed.

(** A greedy group takes the longest run: when what follows the run
    starts with a character the group does not take and the rest of the
    expression matches there, the run is the capture. *)
Lemma greedy_longest (allowed : ascii → bool) (least : nat)
    (k : string → option (list string)) (taken run rest : string)
    (others : list string) :
  all_chars allowed run = true →
  match rest with String c _ => allowed c = false | EmptyString => True end →
  (least ≤ String.length taken + String.length run)%nat →
  k rest = Some others →
  greedy allowed least k taken (run +:+ rest)
  = Some (String.rev (String.rev_app run taken) :: others).
Proof.
  intros Hrun Hrest. revert taken.
  induction run as [|c run IH]; intros taken Hleast Hk.
  - rewrite append_empty_l. cbn [String.rev_app].
    assert ((if bool_decide (least ≤ String.length taken)%nat
             then (String.rev taken ::.) <$> k rest else None)
            = Some (String.rev taken :: others)) as Hstop.
    { rewrite bool_decide_eq_true_2 by (cbn in Hleast; lia).
      by rewrite Hk. }
    destruct rest as [|d rest]; cbn [greedy]; [done|]. by rewrite Hrest.
  - rewrite append_String. cbn [greedy]. cbn in Hrun.
    apply andb_true_iff in Hrun as [Hc Hrun]. rewrite Hc.
    rewrite IH; [done | done | cbn in *; lia | done].
Qed.

Lemma exec_literal (text : string) (re : list token) (p : string) :
  exec ((Lit <$> list_ascii_of_string text) ++ re) p
  = if Dom.starts_with text p
    then exec re (Dom.slice (String.length text) p) else None.
Proof.
  revert p. induction text as [|c text IH]; intros p; [done|].
  cbn [list_ascii_of_string fmap list_fmap app exec Dom.starts_with].
  destruct p as [|d p]; [done|]. cbn [Dom.slice String.length].
  case_bool_decide; [|done]. cbn [andb]. apply IH.
Qed.

Lemma starts_with_append (text rest : string) :
  Dom.starts_with text (text +:+ rest) = true
  ∧ Dom.slice (String.length text) (text +:+ rest) = rest.
Proof.
  induction text as [|c text [IH1 IH2]]; [done|].
  rewrite append_String. cbn. by rewrite bool_decide_eq_true_2, IH1, IH2.
Qed.

Lemma starts_with_slice (text p : string) :
  Dom.starts_with text p = true →
  p = text +:+ Dom.slice (String.length text) p.
Proof.
  revert p. induction text as [|c text IH]; intros p; [done|].
  destruct p as [|d p]; [done|]. cbn.
  case_bool_decide as Hc; [|done]. cbn. intros Hrest.
  rewrite append_String. subst d. f_equal. by apply IH.
Qed.

Lemma tokens_of_cons (seg : segment) (segs : list segment) :
  tokens_of (seg :: segs)
  = Lit "/" :: segment_tokens seg ++ tokens_of segs.
Proof. done. Qed.

Lemma exec_sound (segs : list segment) (p : string)
    (captures : list string) :
  exec (tokens_of segs) p = Some captures →
  Forall2 fits (List.filter capturing segs) captures ∧ p = fill segs captures.
Proof.
  revert p captures. induction segs as [|seg segs IH]; intros p captures.
  - cbn. case_bool_decide; [|done]. intros [= <-]. by split; [constructor|].
  - rewrite tokens_of_cons. cbn [exec].
    destruct p as [|d p]; [done|]. case_bool_decide as Hd; [|done]. subst d.
    destruct seg as [text|name|]; cbn [segment_tokens List.filter capturing fill].
    + rewrite exec_literal.
      destruct (Dom.starts_with text p) eqn:Htext; [|done].
      intros Hrest. destruct (IH _ _ Hrest) as [Hfits Hfill].
      split; [done|]. f_equal.
      rewrite (starts_with_slice _ _ Htext) at 1. by rewrite Hfill.
    + cbn [app exec]. intros Hg.
      destruct (greedy_sound _ _ _ _ _ _ Hg)
        as (run & rest & others & -> & Hrun & Hleast & Hk & ->).
      rewrite rev_rev_app. destruct (IH _ _ Hk) as [Hfits Hfill].
      split; [|by rewrite Hfill].
      constructor; [|done]. split; [|done].
      intros ->. cbn in Hleast. lia.
    + cbn [app exec]. intros Hg.
      destruct (greedy_sound _ _ _ _ _ _ Hg)
        as (run & rest & others & -> & Hrun & Hleast & Hk & ->).
      rewrite rev_rev_app. destruct (IH _ _ Hk) as [Hfits Hfill].
      split; [|by rewrite Hfill].
      by constructor.
Qed.

Lemma fill_boundary (segs : list segment) (values : list string) :
  match fill segs values with
  | String c _ => not_slash c = false
  | EmptyString => True
  end.
Proof. destruct segs as [|[] segs]; [done| |destruct values..]; done. Qed.

Lemma exec_exact (segs : list segment) (values : list string) :
  Forall (λ seg, is_wild seg = false) segs →
  Forall2 fits (List.filter capturing segs) values →
  exec (tokens_of segs) (fill segs values) = Some values.
Proof.
  intros Hwild. revert values.
  induction Hwild as [|seg segs Hseg _ IH]; intros values Hfits.
  - cbn in *. by apply Forall2_nil_inv_l in Hfits as ->.
  - rewrite tokens_of_cons.
    destruct seg as [text|name|]; [| |done];
      cbn [segment_tokens List.filter capturing fill] in *.
    + cbn [exec]. rewrite bool_decide_eq_true_2 by done.
      rewrite exec_literal.
      destruct (starts_with_append text (fill segs values)) as [-> ->].
      by apply IH.
    + apply Forall2_cons_inv_l in Hfits
        as (value & values' & [Hvalue Hslash] & Hfits & ->).
      cbn [app exec]. rewrite bool_decide_eq_true_2 by done.
      rewrite (greedy_longest not_slash 1 _ "" value _ values').
      * by rewrite rev_rev_app.
      * done.
      * apply fill_boundary.
      * destruct value; [done | cbn; lia].
      * by apply IH.
Qed.

(** X14.  A path that a route matches follows the segments of the route:
    for the route that [add] registers for a path of well-formed segments,
    a match means that the path is that of the segments with each parameter
    replaced by a non-empty text without a slash and each wildcard by a text
    without a line terminator, and these texts are the captures, in their
    order. *)
Theorem route_match_follows_segments (segs : list segment) (h : nat)
    (m : jsval) (r : router) :
  Forall well_formed segs →
  ∃ route,
    add (path_of segs) h m r = Some (set_routes (routes r ++ [route]) r)
    ∧ ∀ p captures,
        exec (regexp route) p = Some captures →
        Forall2 fits (List.filter capturing segs) captures
        ∧ p = fill segs captures.
Proof.
  intros Hsegs. eexists. split; [by apply add_path_of|].
  cbn [regexp]. apply exec_sound.
Qed.

(** X15.  A route without wildcard matches every path that follows its
    segments, and captures the texts that stand for its parameters: with
    X14, such a route matches exactly the paths of as many segments as its
    own, equal to its literal segments and non-empty at its parameters. *)
Theorem route_matches_its_shape (segs : list segment) (h : nat)
    (m : jsval) (r : router) (values : list string) :
  Forall well_formed segs →
  Forall (λ seg, is_wild seg = false) segs →
  Forall2 fits (List.filter capturing segs) values →
  ∃ route,
    add (path_of segs) h m r = Some (set_routes (routes r ++ [route]) r)
    ∧ exec (regexp route) (fill segs values) = Some values.
Proof.
  intros Hsegs Hwild Hfits. eexists. split; [by apply add_path_of|].
  cbn [regexp]. by apply exec_exact.
Qed.

End router_shape.

Lemma route_match_follows_segments_witness :
  let segs := [Literal "users"; Param "id"] in
  Forall well_formed segs
  ∧ ∃ route,
      Router.add (path_of segs) 1 (JObj []) users_router
      = Some (Router.set_routes (Router.routes users_router ++ [route])
                                users_router)
      ∧ ∀ p captures,
          Router.exec (Router.regexp route) p = Some captures →
          Forall2 fits (List.filter capturing segs) captures
          ∧ p = fill segs captures.
Proof.
  cbn zeta.
  assert (Forall well_formed [Literal "users"; Param "id"]) as Hsegs
    by (repeat constructor; done).
  split; [exact Hsegs|].
  apply route_match_follows_segments. exact Hsegs.
Defined.

Lemma route_matches_its_shape_witness :
  let segs := [Literal "users"; Param "id"] in
  Forall well_formed segs
  ∧ Forall (λ seg, is_wild seg = false) segs
  ∧ Forall2 fits (List.filter capturing segs) ["42"]
  ∧ ∃ route,
      Router.add (path_of segs) 1 (JObj []) users_router
      = Some (Router.set_routes (Router.routes users_router ++ [route])
                                users_router)
      ∧ Router.exec (Router.regexp route) (fill segs ["42"]) = Some ["42"].
Proof.
  cbn zeta.
  assert (Forall well_formed [Literal "users"; Param "id"]) as Hsegs
    by (repeat constructor; done).
  assert (Forall (λ seg, is_wild seg = false) [Literal "users"; Param "id"])
    as Hwild by (repeat constructor).
  assert (Forall2 fits (List.filter capturing [Literal "users"; Param "id"])
                  ["42"]) as Hfits by (repeat constructor; done).
  split; [exact Hsegs|]. split; [exact Hwild|]. split; [exact Hfits|].
  apply route_matches_its_shape; [exact Hsegs | exact Hwild | exact Hfits].
Defined.

(** ** Reconciler: what [patch] does at the leaves *)

Section patch_more.
Import Dom.

(** X16.  [patch] throws a [TypeError] whenever the new node is [null]
    or [undefined], whatever the old node and the live node are: with an old
    node it reads [newVNode.tag], without one it hands the new node to
    [render], which reads [vNode.type]. *)
Theorem patch_without_new_node_throws (newVNode oldVNode : jsval)
    (domElement : option nat) (d : document) :
  newVNode = JNull ∨ newVNode = JUndefined →
  patch newVNode oldVNode domElement d = Throw TypeError.
Proof.
  intros [-> | ->]; destruct oldVNode as [| |[]|r|s|f|items|value|tag attrs children|props];
    cbn; try done.
  - by destruct (bool_decide (r = "0") || bool_decide (r = "NaN")).
  - by destruct (bool_decide (s = "")).
  - by destruct (bool_decide (r = "0") || bool_decide (r = "NaN")).
  - by destruct (bool_decide (s = "")).
Qed.

Ltac run_M :=
  unfold mbind, M_bind, mret, M_ret, get_document, put_document, throw;
  cbn beta iota.

Lemma deref_node (a : nat) (n : dom_node) (d : document) :
  nodes d !! a = Some n → deref (Some a) d = Ok ((a, n), d).
Proof. intros Hnode. unfold deref. run_M. by rewrite Hnode. Qed.

Lemma get_nodeValue_text (a : nat) (n : dom_node) (d : document) :
  nodes d !! a = Some n → tagName n = None →
  get_nodeValue (Some a) d = Ok (JStr (nodeValue n), d).
Proof.
  intros Hnode Htext. unfold get_nodeValue. run_M.
  rewrite (deref_node a n d Hnode). by rewrite Htext.
Qed.

Lemma set_nodeValue_text (a : nat) (n : dom_node) (d : document)
    (data : string) :
  nodes d !! a = Some n → tagName n = None →
  set_nodeValue (Some a) data d
  = Ok ((), Document
              (<[a := DomNode None data (attributes n) (style n)
                              (listeners n) (childNodes n) (parentNode n)]>
                 (nodes d))
              (next_node d)).
Proof.
  intros Hnode Htext. unfold set_nodeValue. run_M.
  rewrite (deref_node a n d Hnode). cbn beta iota. rewrite Htext.
  unfold store_node. by run_M.
Qed.

(** X17.  For two text nodes [patch] compares the text of the new node
    with the data of the live node, not with the text of the old node, and
    writes the data only when they differ: the live node is returned, no
    node is created, and with equal text the document is left as it is. *)
Theorem patch_text_writes_when_different (value oldValue : string)
    (a : nat) (n : dom_node) (d : document) :
  nodes d !! a = Some n → tagName n = None →
  patch (JText value) (JText oldValue) (Some a) d
  = Ok (Some a,
        if bool_decide (nodeValue n = value) then d
        else Document
               (<[a := DomNode None value (attributes n) (style n)
                               (listeners n) (childNodes n) (parentNode n)]>
                  (nodes d))
               (next_node d)).
Proof.
  intros Hnode Htext.
  cbn [patch truthy negb tag_of]. run_M. cbn [strict_eq negb]. cbn beta iota.
  rewrite (get_nodeValue_text a n d Hnode Htext). cbn [strict_eq].
  case_bool_decide; cbn [negb]; [done|].
  by rewrite (set_nodeValue_text a n d value Hnode Htext).
Qed.

Lemma removeAttribute_element (a : nat) (n : dom_node) (d : document)
    (tag name : string) :
  nodes d !! a = Some n → tagName n = Some tag →
  removeAttribute (Some a) name d
  = Ok ((), Document
              (<[a := DomNode (tagName n) (nodeValue n)
                              (delete name (attributes n))
                              (if bool_decide (name = "style") then []
                               else style n)
                              (listeners n) (childNodes n) (parentNode n)]>
                 (nodes d))
              (next_node d)).
Proof.
  intros Hnode Htag. unfold removeAttribute, deref_element. run_M.
  rewrite (deref_node a n d Hnode). cbn beta iota. rewrite Htag.
  unfold store_node. run_M. by rewrite Htag.
Qed.

(** X18.  [render] writes the value of [className] to the attribute
    [class], while [updateAttributes] removes an attribute that the new
    node no longer has under the key it has in the old node: when the new
    node of a [patch] has dropped [className], the call removes an attribute
    named [className] and the live element keeps its [class] attribute. *)
Theorem patch_keeps_class_of_dropped_className (tag : string)
    (value : jsval) (a : nat) (n : dom_node) (d : document) :
  nodes d !! a = Some n → tagName n = Some tag →
  ∃ n' d',
    patch (JElem tag (JObj []) []) (JElem tag (JObj [("className", value)]) [])
          (Some a) d
    = Ok (Some a, d')
    ∧ nodes d' !! a = Some n'
    ∧ attributes n' !! "class" = attributes n !! "class".
Proof.
  intros Hnode Htag.
  cbn [patch truthy negb tag_of attrs_of children_of or_empty]. run_M.
  cbn [strict_eq]. rewrite bool_decide_eq_true_2 by done.
  cbn [negb]. cbn beta iota.
  unfold updateAttributes. run_M.
  cbn [entries fmap list_fmap fst forEach].
  replace (starts_with "on" "className") with false by (vm_compute; reflexivity).
  unfold has_property. cbn [typeof entries assoc]. run_M.
  rewrite (bool_decide_eq_false_2 (is_Some None)) by (by intros [? ?]).
  cbn [negb].
  rewrite (removeAttribute_element a n d tag "className" Hnode Htag).
  set (n1 := DomNode _ _ _ _ _ _ _).
  set (d1 := Document _ _).
  assert (nodes d1 !! a = Some n1) as Hnode1 by apply lookup_insert_eq.
  unfold updateChildren_with, get_childNodes. run_M.
  rewrite (deref_node a n1 d1 Hnode1).
  cbn [update_or_add remove_extra length Nat.sub]. run_M.
  exists n1, d1. split; [done|]. split; [done|].
  subst n1. cbn [attributes]. by rewrite lookup_delete_ne.
Qed.

End patch_more.

(** *** The reconciler on concrete inputs *)

Lemma patch_without_new_node_throws_witness :
  (JNull = JNull ∨ JNull = JUndefined)
  ∧ Dom.patch JNull noted_paragraph (Some 1)
      (document_after_render noted_paragraph)
    = Throw TypeError.
Proof.
  split; [by left|]. apply patch_without_new_node_throws. by left.
Defined.

Lemma patch_text_writes_when_different_witness :
  let d := document_after_render (JText "one") in
  let n := Dom.DomNode None "one" ∅ [] [] [] (Some 0) in
  Dom.nodes d !! 1 = Some n
  ∧ Dom.tagName n = None
  ∧ Dom.patch (JText "two") (JText "one") (Some 1) d
    = Ok (Some 1,
          if bool_decide (Dom.nodeValue n = "two") then d
          else Dom.Document
                 (<[1 := Dom.DomNode None "two" (Dom.attributes n)
                           (Dom.style n) (Dom.listeners n)
                           (Dom.childNodes n) (Dom.parentNode n)]>
                    (Dom.nodes d))
                 (Dom.next_node d)).
Proof.
  cbn zeta.
  assert (Dom.nodes (document_after_render (JText "one")) !! 1
          = Some (Dom.DomNode None "one" ∅ [] [] [] (Some 0))) as Hnode
    by (vm_compute; reflexivity).
  split; [exact Hnode|]. split; [reflexivity|].
  apply (patch_text_writes_when_different "two" "one" 1 _ _ Hnode).
  reflexivity.
Defined.

Lemma patch_keeps_class_of_dropped_className_witness :
  let d := document_after_render noted_paragraph in
  let n := Dom.DomNode (Some "p") "" {["class" := JStr "note"]} [] [] []
                       (Some 0) in
  Dom.nodes d !! 1 = Some n
  ∧ Dom.tagName n = Some "p"
  ∧ ∃ n' d',
      Dom.patch (JElem "p" (JObj []) [])
                (JElem "p" (JObj [("className", JStr "note")]) [])
                (Some 1) d
      = Ok (Some 1, d')
      ∧ Dom.nodes d' !! 1 = Some n'
      ∧ Dom.attributes n' !! "class" = Dom.attributes n !! "class".
Proof.
  cbn zeta.
  assert (Dom.nodes (document_after_render noted_paragraph) !! 1
          = Some (Dom.DomNode (Some "p") "" {["class" := JStr "note"]} [] [] []
                              (Some 0))) as Hnode
    by (vm_compute; reflexivity).
  split; [exact Hnode|]. split; [reflexivity|].
  apply (patch_keeps_class_of_dropped_className "p" (JStr "note") 1 _ _ Hnode).
  reflexivity.
Defined.

(** ** Events: emission and the wrappers of [once] *)

Section events_more.
Import Events.
Context (env : environment).

Lemma call_listener_keeps (eventName : string) (args : list jsval)
    (l : listener) (b : bus) :
  keeps env args l →
  call_listener env eventName args l b
  = Bus (listeners b) (next_wrapper b)
        (trace b ++ reported env eventName args l).
Proof.
  destruct l as [f|id wrapped callback]; cbn.
  - intros _. destruct (throws env f args); unfold log; cbn;
      by rewrite <- ?app_assoc.
  - destruct callback; unfold log; cbn; try done.
    intros ->. cbn. by rewrite <- app_assoc.
Qed.

Lemma visit_keeps (eventName : string) (args : list jsval)
    (l : list listener) (count k : nat) (b : bus) :
  Forall (keeps env args) l →
  listeners b !! eventName = Some l →
  visit env eventName args k count b
  = Bus (listeners b) (next_wrapper b)
        (trace b ++ (take count (drop k l) ≫= reported env eventName args)).
Proof.
  intros Hkeeps. revert k b.
  induction count as [|count IH]; intros k b Hl.
  - cbn. rewrite app_nil_r. by destruct b.
  - cbn [visit]. rewrite Hl. change (default [] (Some l)) with l.
    destruct (l !! k) as [x|] eqn:Hk; cbn beta iota zeta.
    + rewrite (drop_S _ _ _ Hk). cbn [take].
      rewrite call_listener_keeps
        by (by eapply Forall_lookup_1 in Hkeeps).
      rewrite IH by done. cbn [listeners next_wrapper trace].
      by rewrite bind_cons, <- app_assoc.
    + rewrite IH by done.
      apply lookup_ge_None in Hk.
      by rewrite !drop_ge, !take_nil by lia.
Qed.

Lemma emit_keeps (eventName : string) (args : list jsval)
    (l : list listener) (b : bus) :
  inherited eventName = false →
  listeners b !! eventName = Some l →
  Forall (keeps env args) l →
  emit env eventName args b
  = Ok (Bus (listeners b) (next_wrapper b)
            (trace b ++ (l ≫= reported env eventName args))).
Proof.
  intros Hname Hl Hkeeps. unfold emit. rewrite Hname, Hl.
  rewrite (visit_keeps eventName args l) by done.
  by rewrite drop_0, firstn_all.
Qed.

(** X19.  [emit] calls the listeners of the event in the order of their
    registration, each with the arguments of the emission; what a listener
    throws is reported on the console and the listeners after it are still
    called.  The registry is as before: a function handed to [on] stays, and
    so does a wrapper of [once] whose callback throws or is no function. *)
Theorem emit_reports_and_goes_on (eventName : string) (args : list jsval)
    (l : list listener) (b : bus) :
  inherited eventName = false →
  listeners b !! eventName = Some l →
  Forall (keeps env args) l →
  emit env eventName args b
  = Ok (Bus (listeners b) (next_wrapper b)
            (trace b ++ (l ≫= reported env eventName args))).
Proof. apply emit_keeps. Qed.

(** X20.  A wrapper of [once] takes itself out of the array that [emit]
    is going through: when it is the first listener of the event and its
    callback returns, the listener registered right after it moves into its
    place and is passed over by this emission; the listeners after that one
    are called.  After the emission the wrapper is gone, and the event with
    it when it was the only listener. *)
Theorem once_wrapper_skips_next (eventName : string) (args : list jsval)
    (id g : nat) (others : list nat) (b : bus) :
  inherited eventName = false →
  throws env g args = false →
  listeners b !! eventName
  = Some (Wrapper id eventName (JFun g) :: (Handed <$> others)) →
  emit env eventName args b
  = Ok (Bus (if bool_decide (others = [])
             then delete eventName (listeners b)
             else <[eventName := Handed <$> others]> (listeners b))
            (next_wrapper b)
            (trace b ++ Called g args
             :: ((Handed <$> drop 1 others) ≫= reported env eventName args))).
Proof.
  intros Hname Hg Hl. unfold emit. rewrite Hname, Hl.
  cbn [length visit]. rewrite Hl.
  change (default [] (Some ?l)) with l. cbn [lookup list_lookup].
  cbn [call_listener]. rewrite Hg. unfold off.
  rewrite Hname. cbn [log listeners]. rewrite Hl.
  cbn [indexOf same_function]. rewrite bool_decide_eq_true_2 by done.
  cbn [delete list_delete]. rewrite length_fmap.
  destruct others as [|h rest].
  - cbn [fmap list_fmap length visit bool_decide]. by cbn.
  - rewrite bool_decide_eq_false_2 by done.
    rewrite (bool_decide_eq_false_2 (h :: rest = [])) by done.
    rewrite (visit_keeps eventName args (Handed <$> (h :: rest))).
    + cbn [set_listeners listeners next_wrapper trace length].
      unfold log. cbn [listeners next_wrapper trace].
      rewrite <- fmap_drop.
      rewrite take_ge by (rewrite length_fmap, length_drop; cbn; lia).
      by rewrite <- app_assoc.
    + apply Forall_fmap. by apply Forall_true.
    + cbn. apply lookup_insert_eq.
Qed.

(** X21.  A wrapper of [once] takes itself out after its callback has
    returned: when the callback throws, or is no function, the wrapper stays
    registered, and the callback is called again, and fails again, at every
    later emission of the event. *)
Theorem once_callback_that_throws_stays (eventName : string)
    (args : list jsval) (callback : jsval) (b : bus) :
  let wrapper := Wrapper (next_wrapper b) eventName callback in
  inherited eventName = false →
  listeners b !! eventName = None →
  keeps env args wrapper →
  ∃ b1 b2 b3,
    once eventName callback b = Ok (wrapper, b1)
    ∧ emit env eventName args b1 = Ok b2
    ∧ emit env eventName args b2 = Ok b3
    ∧ listeners b3 !! eventName = Some [wrapper]
    ∧ trace b3
      = trace b ++ reported env eventName args wrapper
        ++ reported env eventName args wrapper.
Proof.
  cbn zeta. intros Hname Hnone Hkeeps.
  unfold once, push. rewrite Hname. cbn [listeners]. rewrite Hnone.
  cbn [default app mbind result_bind mret result_ret].
  set (wrapper := Wrapper (next_wrapper b) eventName callback) in *.
  set (b1 := set_listeners _ _).
  assert (listeners b1 !! eventName = Some [wrapper]) as Hl1
    by (subst b1; cbn; apply lookup_insert_eq).
  assert (Forall (keeps env args) [wrapper]) as Hall
    by (by constructor).
  eexists b1, _, _. split; [done|].
  split; [by apply (emit_keeps eventName args [wrapper])|].
  split; [by apply (emit_keeps eventName args [wrapper])|].
  split; [done|].
  subst b1. cbn [trace set_listeners listeners next_wrapper].
  rewrite !bind_cons. cbn [mbind list_bind]. by rewrite !app_nil_r, <- app_assoc.
Qed.

Lemma push_no_empty_array (eventName : string) (callback : listener)
    (b b' : bus) :
  no_empty_array b → push eventName callback b = Ok b' → no_empty_array b'.
Proof.
  intros Hb. unfold push. destruct (inherited eventName); [done|].
  intros [= <-] name l. cbn.
  destruct (decide (name = eventName)) as [->|Hne].
  - rewrite lookup_insert_eq. intros [= <-].
    by destruct (default [] (listeners b !! eventName)).
  - rewrite lookup_insert_ne by done. apply Hb.
Qed.

Lemma off_no_empty_array (eventName : string) (callback : listener)
    (b b' : bus) :
  no_empty_array b → off eventName callback b = Ok b' → no_empty_array b'.
Proof.
  intros Hb. unfold off. destruct (inherited eventName); [done|].
  destruct (listeners b !! eventName) as [l|]; [|by intros [= <-]].
  destruct (indexOf callback l) as [index|]; [|by intros [= <-]].
  case_bool_decide as Hlen; intros [= <-] name l'; cbn.
  - destruct (decide (name = eventName)) as [->|Hne].
    + by rewrite lookup_delete_eq.
    + rewrite lookup_delete_ne by done. apply Hb.
  - destruct (decide (name = eventName)) as [->|Hne].
    + rewrite lookup_insert_eq. intros [= <-] Hnil.
      by rewrite Hnil in Hlen.
    + rewrite lookup_insert_ne by done. apply Hb.
Qed.

Lemma log_no_empty_array (e : event) (b : bus) :
  no_empty_array b → no_empty_array (log e b).
Proof. done. Qed.

Lemma call_listener_no_empty_array (eventName : string) (args : list jsval)
    (l : listener) (b : bus) :
  no_empty_array b → no_empty_array (call_listener env eventName args l b).
Proof.
  intros Hb. destruct l as [f|id wrapped callback]; cbn [call_listener].
  - by destruct (throws env f args).
  - destruct callback; try done.
    destruct (throws env f args); [done|].
    destruct (off wrapped _ _) as [b'|e] eqn:Hoff; [|done].
    by apply (off_no_empty_array _ _ _ _ (log_no_empty_array _ _ Hb) Hoff).
Qed.

Lemma visit_no_empty_array (eventName : string) (args : list jsval)
    (k count : nat) (b : bus) :
  no_empty_array b → no_empty_array (visit env eventName args k count b).
Proof.
  revert k b. induction count as [|count IH]; intros k b Hb; [done|].
  cbn [visit]. apply IH.
  destruct (default [] (listeners b !! eventName) !! k); [|done].
  by apply call_listener_no_empty_array.
Qed.

(** X22.  The registry never holds an empty array: whatever calls of
    [on], [once], [off], [emit] and [clear] are made on the events system,
    every event name that the registry has is the name of at least one
    listener, so that [emit] and [off] return at their first test exactly
    for the events without listener. *)
Theorem registry_has_no_empty_array (calls : list events_call) :
  no_empty_array (foldl (events_perform env) Events calls).
Proof.
  assert (no_empty_array Events) as Hstart
    by (intros name l; cbn; by rewrite lookup_empty).
  revert Hstart. generalize Events as b.
  induction calls as [|c calls IH]; intros b Hb; [done|].
  cbn [foldl]. apply IH.
  destruct c as [name callback|name callback|name args|name callback|name];
    cbn [events_perform].
  - unfold on. destruct callback; try done.
    destruct (push name (Handed f) b) as [b'|e] eqn:Hpush; [|done].
    cbn. by apply (push_no_empty_array _ _ _ _ Hb Hpush).
  - destruct (off name callback b) as [b'|e] eqn:Hoff; [|done].
    by apply (off_no_empty_array _ _ _ _ Hb Hoff).
  - unfold emit. destruct (inherited name); [done|].
    destruct (listeners b !! name); [|done].
    by apply visit_no_empty_array.
  - unfold once.
    destruct (push name _ _) as [b'|e] eqn:Hpush; [|done].
    cbn. by apply (push_no_empty_array _ _ _ _ (Hb : no_empty_array (Bus _ _ _))
                     Hpush).
  - unfold clear. destruct (truthy _); intros name' l; cbn.
    + destruct (decide (name' = default "" name)) as [->|Hne].
      * by rewrite lookup_delete_eq.
      * rewrite lookup_delete_ne by done. apply Hb.
    + by rewrite lookup_empty.
Qed.

End events_more.

(** *** The events system on concrete inputs *)

Lemma emit_reports_and_goes_on_witness :
  let b := bus_after [On "save" (JFun 5); On "save" (JFun 6);
                      On "save" (JFun 7)] in
  let l := [Events.Handed 5; Events.Handed 6; Events.Handed 7] in
  Events.inherited "save" = false
  ∧ Events.listeners b !! "save" = Some l
  ∧ Forall (keeps events_environment [JNum "1"]) l
  ∧ Events.emit events_environment "save" [JNum "1"] b
    = Ok (Events.Bus (Events.listeners b) (Events.next_wrapper b)
            (Events.trace b
             ++ (l ≫= reported events_environment "save" [JNum "1"]))).
Proof.
  cbn zeta.
  assert (Forall (keeps events_environment [JNum "1"])
                 [Events.Handed 5; Events.Handed 6; Events.Handed 7])
    as Hkeeps by (by repeat constructor).
  split; [reflexivity|]. split; [reflexivity|]. split; [exact Hkeeps|].
  apply emit_reports_and_goes_on; [reflexivity | reflexivity | exact Hkeeps].
Defined.

Lemma once_wrapper_skips_next_witness :
  let b := bus_after [Once "save" (JFun 5); On "save" (JFun 7);
                      On "save" (JFun 8)] in
  Events.inherited "save" = false
  ∧ Events.throws events_environment 5 [] = false
  ∧ Events.listeners b !! "save"
    = Some (Events.Wrapper 0 "save" (JFun 5) :: (Events.Handed <$> [7; 8]))
  ∧ Events.emit events_environment "save" [] b
    = Ok (Events.Bus
            (if bool_decide ([7; 8] = [])
             then delete "save" (Events.listeners b)
             else <["save" := Events.Handed <$> [7; 8]]> (Events.listeners b))
            (Events.next_wrapper b)
            (Events.trace b ++ Events.Called 5 []
             :: ((Events.Handed <$> drop 1 [7; 8])
                 ≫= reported events_environment "save" []))).
Proof.
  cbn zeta. split; [reflexivity|]. split; [reflexivity|].
  split; [reflexivity|].
  apply (once_wrapper_skips_next events_environment "save" [] 0 5 [7; 8]);
    reflexivity.
Defined.

Lemma once_callback_that_throws_stays_witness :
  let wrapper := Events.Wrapper 0 "save" (JFun 6) in
  Events.inherited "save" = false
  ∧ Events.listeners Events.Events !! "save" = None
  ∧ keeps events_environment [] wrapper
  ∧ ∃ b1 b2 b3,
      Events.once "save" (JFun 6) Events.Events = Ok (wrapper, b1)
      ∧ Events.emit events_environment "save" [] b1 = Ok b2
      ∧ Events.emit events_environment "save" [] b2 = Ok b3
      ∧ Events.listeners b3 !! "save" = Some [wrapper]
      ∧ Events.trace b3
        = Events.trace Events.Events
          ++ reported events_environment "save" [] wrapper
          ++ reported events_environment "save" [] wrapper.
Proof.
  cbn zeta. split; [reflexivity|]. split; [reflexivity|].
  split; [reflexivity|].
  apply (once_callback_that_throws_stays events_environment "save" []
           (JFun 6) Events.Events); reflexivity.
Defined.
